(** * honeylint: the condition lexer and the structural check of [ParseCondition]

    A shallow embedding of [main.go].  A Go [string] is a sequence of bytes,
    modelled by [String.string] (a list of 8-bit [ascii]); [len(s)] is
    [String.length s], [s[i]] is [String.get i s] and [s[a:b]] is
    [String.substring a (b - a) s].  The lexer is a mutable struct behind a
    pointer: every method takes the lexer and returns the updated one.  The
    three loops of the program recurse on the number of bytes that are left
    after the cursor, by well-founded recursion. *)

From Equations Require Import Equations.
From Equations.Prop Require Import Logic.
From Stdlib Require Import List Arith Lia Bool Ascii String.
Import ListNotations.

Local Open Scope string_scope.
Local Open Scope list_scope.
Local Open Scope nat_scope.

(** ** Tokens (main.go, lines 37-57) *)

Inductive Token : Set :=
| ILLEGAL | EOF | WHITESPACE | AND | OR | NOT | LPAREN | RPAREN
| EQUALS | NOT_EQUALS | REG_MATCH | EXISTS | IN | LT | LTE | GT | GTE.

Definition Token_eq_dec (a b : Token) : {a = b} + {a <> b}.
Proof. decide equality. Defined.

Definition Token_eqb (a b : Token) : bool :=
  if Token_eq_dec a b then true else false.

(** ** The keyword table (lines 59-72)

    A Go map literal: its keys are distinct, so a lookup is the first match
    of an association list. *)

Definition keywords : list (string * Token) :=
  [ ("AND", AND); ("OR", OR); ("NOT", NOT); ("=", EQUALS);
    ("!=", NOT_EQUALS); ("=~", REG_MATCH); ("EXISTS", EXISTS); ("IN", IN);
    ("<", LT); ("<=", LTE); (">", GT); (">=", GTE) ].

Fixpoint lookup (m : list (string * Token)) (k : string) : option Token :=
  match m with
  | [] => None
  | (k', v) :: m' => if String.eqb k' k then Some v else lookup m' k
  end.

(** ** Byte classes (lines 180-190)

    [isOperator], [isDigit], [readIdentifier] and [readLiteral], which
    nothing calls, come after [ParseCondition]. *)

Definition tab : ascii := ascii_of_nat 9.
Definition cr : ascii := ascii_of_nat 13.
Definition nl : ascii := ascii_of_nat 10.

Definition isWhitespace (ch : ascii) : bool :=
  (ch =? " ")%char || (ch =? tab)%char || (ch =? cr)%char || (ch =? nl)%char.

Definition isLetter (ch : ascii) : bool :=
  (Ascii.leb "a" ch && Ascii.leb ch "z") || (Ascii.leb "A" ch && Ascii.leb ch "Z").

(** ** The lexer (lines 74-162) *)

Record Lexer : Set := mkLexer { input : string; pos : nat }.

Definition NewLexer (input : string) : Lexer :=
  {| input := input; pos := 0 |}.

(** [l.pos++] *)
Definition advance (l : Lexer) : Lexer :=
  {| input := input l; pos := S (pos l) |}.

(** Bytes of the input that lie at or after the cursor. *)
Definition remaining (l : Lexer) : nat := String.length (input l) - pos l.

Lemma get_Some_lt (s : string) (n : nat) (c : ascii) :
  String.get n s = Some c -> n < String.length s.
Proof.
  revert n; induction s as [|a s IH]; intros [|n] H; simpl in *;
    try discriminate; try lia.
  apply IH in H; lia.
Qed.

(** [skipWhitespace] (lines 132-140): [String.get] is [None] exactly when
    [l.pos >= len(l.input)], which is where the [for] condition fails. *)
Equations? skipWhitespace (l : Lexer) : Lexer by wf (remaining l) lt :=
  skipWhitespace l with inspect (String.get (pos l) (input l)) := {
    | exist _ None _ := l;
    | exist _ (Some ch) Hch :=
        if negb (ch =? " ")%char && negb (ch =? tab)%char
           && negb (ch =? cr)%char && negb (ch =? nl)%char
        then l
        else skipWhitespace (advance l) }.
Proof. apply get_Some_lt in Hch. unfold remaining; simpl; lia. Qed.

(** [peek] (lines 142-147) *)
Definition peek (l : Lexer) : ascii :=
  match String.get (pos l) (input l) with
  | None => zero
  | Some ch => ch
  end.

(** The [for] loop of [readKeyword] (lines 151-153). *)
Equations? readKeyword_loop (l : Lexer) : Lexer by wf (remaining l) lt :=
  readKeyword_loop l with inspect (String.get (pos l) (input l)) := {
    | exist _ None _ := l;
    | exist _ (Some ch) Hch :=
        if isLetter ch then readKeyword_loop (advance l) else l }.
Proof. apply get_Some_lt in Hch. unfold remaining; simpl; lia. Qed.

(** [readKeyword] (lines 149-162).  The third component is what the call
    writes to standard output: one line per [fmt.Println].  The only call
    comes after [l.pos++], so [pos l - 1] is the index of the byte just read
    and the slice [start:l.pos] lies inside the input. *)
Definition readKeyword (l : Lexer) : Token * Lexer * list string :=
  let start := pos l - 1 in
  let l := readKeyword_loop l in
  let word := String.substring start (pos l - start) (input l) in
  match lookup keywords word with
  | Some tok => (tok, l, [])
  | None => (ILLEGAL, l, [word])
  end.

(** [NextToken] (lines 83-130) *)
Definition NextToken (l : Lexer) : Token * Lexer * list string :=
  let l := skipWhitespace l in
  match String.get (pos l) (input l) with
  | None => (EOF, l, [])
  | Some ch =>
      let l := advance l in
      if (ch =? "(")%char then (LPAREN, l, [])
      else if (ch =? ")")%char then (RPAREN, l, [])
      else if (ch =? "=")%char then
        if (peek l =? "~")%char then (REG_MATCH, advance l, [])
        else (EQUALS, l, [])
      else if (ch =? "!")%char then
        if (peek l =? "=")%char then (NOT_EQUALS, advance l, [])
        else (NOT, l, [])
      else if (ch =? ",")%char then (WHITESPACE, l, [])
      else if (ch =? "<")%char then
        if (peek l =? "=")%char then (LTE, advance l, [])
        else (LT, l, [])
      else if (ch =? ">")%char then
        if (peek l =? "=")%char then (GTE, advance l, [])
        else (GT, l, [])
      else if isLetter ch then readKeyword l
      else (ILLEGAL, l, [])
  end.

(** *** Unfolding and basic facts of the two scanning loops *)

Lemma skipWhitespace_eq (l : Lexer) :
  skipWhitespace l =
  match String.get (pos l) (input l) with
  | None => l
  | Some ch =>
      if negb (ch =? " ")%char && negb (ch =? tab)%char
         && negb (ch =? cr)%char && negb (ch =? nl)%char
      then l
      else skipWhitespace (advance l)
  end.
Proof.
  funelim (skipWhitespace l).
  - rewrite Hch. reflexivity.
  - rewrite e. reflexivity.
Qed.

Lemma inline_whitespace_test (ch : ascii) :
  negb (ch =? " ")%char && negb (ch =? tab)%char
  && negb (ch =? cr)%char && negb (ch =? nl)%char = negb (isWhitespace ch).
Proof.
  unfold isWhitespace.
  destruct (ch =? " ")%char, (ch =? tab)%char, (ch =? cr)%char, (ch =? nl)%char;
    reflexivity.
Qed.

Lemma skipWhitespace_input (l : Lexer) : input (skipWhitespace l) = input l.
Proof.
  funelim (skipWhitespace l); [|reflexivity].
  match goal with |- context [if ?b then _ else _] => destruct b end;
    [reflexivity | assumption].
Qed.

Lemma skipWhitespace_pos_ge (l : Lexer) : pos l <= pos (skipWhitespace l).
Proof.
  funelim (skipWhitespace l); [|lia].
  match goal with |- context [if ?b then _ else _] => destruct b end;
    [lia | simpl in *; lia].
Qed.

(** On exit the cursor is at the end of the input or on a byte that is not
    white space. *)
Lemma skipWhitespace_stops (l : Lexer) :
  match String.get (pos (skipWhitespace l)) (input l) with
  | None => True
  | Some ch => isWhitespace ch = false
  end.
Proof.
  funelim (skipWhitespace l).
  - rewrite inline_whitespace_test.
    destruct (isWhitespace ch) eqn:Hws; simpl.
    + assumption.
    + rewrite Hch. assumption.
  - rewrite e. exact I.
Qed.

Lemma readKeyword_loop_input (l : Lexer) : input (readKeyword_loop l) = input l.
Proof.
  funelim (readKeyword_loop l); [|reflexivity].
  destruct (isLetter ch); [assumption | reflexivity].
Qed.

Lemma readKeyword_loop_pos_ge (l : Lexer) : pos l <= pos (readKeyword_loop l).
Proof.
  funelim (readKeyword_loop l); [|lia].
  destruct (isLetter ch); [simpl in *; lia | lia].
Qed.

Lemma readKeyword_loop_pos_le (l : Lexer) :
  pos l <= String.length (input l) ->
  pos (readKeyword_loop l) <= String.length (input l).
Proof.
  funelim (readKeyword_loop l); intros Hle; [|assumption].
  destruct (isLetter ch); [|assumption].
  pose proof (get_Some_lt _ _ _ Hch). apply H. simpl. lia.
Qed.

Lemma peek_eq_lt (l : Lexer) (c : ascii) :
  c <> zero -> (peek l =? c)%char = true -> pos l < String.length (input l).
Proof.
  unfold peek. intros Hc Hp. apply Ascii.eqb_eq in Hp.
  destruct (String.get (pos l) (input l)) eqn:Hg.
  - eapply get_Some_lt; eassumption.
  - congruence.
Qed.

(** Every call of [NextToken] keeps the input, and a call that does not
    return [EOF] moves the cursor forward and leaves it inside the input. *)
Lemma NextToken_progress (l l' : Lexer) (tok : Token) (o : list string) :
  NextToken l = (tok, l', o) ->
  input l' = input l /\
  (tok <> EOF -> pos l < pos l' <= String.length (input l)).
Proof.
  unfold NextToken.
  pose proof (skipWhitespace_input l) as Hin.
  pose proof (skipWhitespace_pos_ge l) as Hge.
  set (l1 := skipWhitespace l) in *.
  destruct (String.get (pos l1) (input l1)) as [ch|] eqn:Hg.
  2:{ intros [= <- <- <-]. split; [assumption | congruence]. }
  apply get_Some_lt in Hg. rewrite Hin in Hg.
  assert (Hadv : input (advance l1) = input l) by (simpl; assumption).
  assert (Hpk : forall c, c <> zero -> (peek (advance l1) =? c)%char = true ->
                          S (S (pos l1)) <= String.length (input l)).
  { intros c Hc Hp. apply peek_eq_lt in Hp; [|assumption].
    rewrite Hadv in Hp. simpl in Hp. lia. }
  repeat match goal with
         | |- context [if (peek ?x =? ?c)%char then _ else _] =>
             let E := fresh "E" in
             destruct (peek x =? c)%char eqn:E;
             [apply Hpk in E; [|discriminate]|]
         | |- context [if (ch =? ?c)%char then _ else _] =>
             destruct (ch =? c)%char
         end;
    try (intros [= <- <- <-]; simpl; split; [assumption | intros _; lia]).
  all: destruct (isLetter ch);
    [| intros [= <- <- <-]; simpl; split; [assumption | intros _; lia]].
  all: unfold readKeyword;
    pose proof (readKeyword_loop_input (advance l1)) as Hin2;
    pose proof (readKeyword_loop_pos_ge (advance l1)) as Hge2;
    pose proof (readKeyword_loop_pos_le (advance l1)) as Hle2;
    rewrite Hadv in *; simpl in Hge2, Hle2;
    destruct (lookup keywords _); intros [= <- <- <-];
    (split; [assumption | intros _; lia]).
Qed.

Lemma NextToken_remaining (l l' : Lexer) (tok : Token) (o : list string) :
  NextToken l = (tok, l', o) -> tok <> EOF -> remaining l' < remaining l.
Proof.
  intros H Hne. apply NextToken_progress in H. destruct H as [Hin Hp].
  specialize (Hp Hne). unfold remaining. rewrite Hin. lia.
Qed.

(** ** [ParseCondition] (lines 196-258) *)

(** The token loop (lines 199-207): [tokens] is the slice built so far and
    [out] the lines printed so far. *)
Equations? tokens_loop (l : Lexer) (tokens : list Token) (out : list string)
  : list Token * list string by wf (remaining l) lt :=
  tokens_loop l tokens out with inspect (NextToken l) := {
    | exist _ (token, l', o) Hnext with Token_eq_dec token EOF := {
        | left _ := (tokens, out ++ o);
        | right Hne := tokens_loop l' (tokens ++ [token]) (out ++ o) } }.
Proof. eapply NextToken_remaining; eassumption. Qed.

(** A run of Go code that may stop with a run-time panic (here: an index out
    of range): [None] is the panic. *)
Notation "'let?' x ':=' e 'in' k" :=
  (match e with Some x => k | None => None end)
  (at level 10, x name, e at level 100, k at level 200, only parsing).

(** [fmt.Errorf] with a constant format: the error carries the message.
    The [nil] error is [None]. *)
Definition Errorf (msg : string) : option string := Some msg.

(** The checks on the token slice (lines 209-257).  [nth_error tokens i] is
    the indexing [tokens[i]].  [tail_check] is the code after the [if] chain
    (lines 252-257), reached by every branch that does not return. *)
Definition check (input : string) (tokens : list Token)
  : option (string * option string) :=
  let tail_check :=
    if List.length tokens =? 0 then Some ("", Errorf "Empty condition")
    else Some (input, None) in
  if List.length tokens =? 0 then Some ("", Errorf "Empty condition") else
  let? t := nth_error tokens 0 in
  if Token_eqb t NOT then
    if List.length tokens =? 1 then
      Some ("", Errorf "NOT operator must be followed by a condition")
    else
      let? t1 := nth_error tokens 1 in
      if Token_eqb t1 LPAREN then
        let? tl := nth_error tokens (List.length tokens - 1) in
        if negb (Token_eqb tl RPAREN) then
          Some ("", Errorf "Mismatched parentheses")
        else tail_check
      else tail_check
  else
  let? t := nth_error tokens 0 in
  if Token_eqb t LPAREN then
    let? tl := nth_error tokens (List.length tokens - 1) in
    if negb (Token_eqb tl RPAREN) then
      Some ("", Errorf "Mismatched parentheses")
    else tail_check
  else
  let? t := nth_error tokens 0 in
  if Token_eqb t EXISTS then
    if List.length tokens =? 1 then
      Some ("", Errorf "EXISTS operator must be followed by a field name")
    else
      let? t1 := nth_error tokens 1 in
      if negb (Token_eqb t1 WHITESPACE) then
        Some ("", Errorf "EXISTS operator must be followed by a field name")
      else tail_check
  else
  let? t := nth_error tokens 0 in
  if Token_eqb t IN then
    if List.length tokens =? 1 then
      Some ("", Errorf "IN operator must be followed by a field name")
    else
      let? t1 := nth_error tokens 1 in
      if negb (Token_eqb t1 WHITESPACE) then
        Some ("", Errorf "IN operator must be followed by a field name")
      else tail_check
  else
  let? t := nth_error tokens 0 in
  if Token_eqb t REG_MATCH then
    if List.length tokens =? 1 then
      Some ("", Errorf "=~ operator must be followed by a field name")
    else
      let? t1 := nth_error tokens 1 in
      if negb (Token_eqb t1 WHITESPACE) then
        Some ("", Errorf "=~ operator must be followed by a field name")
      else tail_check
  else
  let? t := nth_error tokens 0 in
  if Token_eqb t ILLEGAL then Some ("", Errorf "Invalid condition")
  else tail_check.

(** The whole call: the returned pair (or the panic) and the lines written
    to standard output by the lexer. *)
Definition ParseCondition_run (input : string)
  : option (string * option string) * list string :=
  let l := NewLexer input in
  let '(tokens, out) := tokens_loop l [] [] in
  (check input tokens, out).

Definition ParseCondition (input : string) : option (string * option string) :=
  fst (ParseCondition_run input).

(** The token slice that [ParseCondition] builds for [input]. *)
Definition tokenize (input : string) : list Token :=
  fst (tokens_loop (NewLexer input) [] []).

(** ** The helpers that nothing calls (lines 164-194) *)

Definition isOperator (ch : ascii) : bool :=
  (ch =? "(")%char || (ch =? ")")%char || (ch =? ",")%char || (ch =? "=")%char
  || (ch =? "!")%char || (ch =? "<")%char || (ch =? ">")%char.

Definition isDigit (ch : ascii) : bool :=
  Ascii.leb "0" ch && Ascii.leb ch "9".

(** The [for] loop of [readIdentifier] (lines 166-168). *)
Equations? readIdentifier_loop (l : Lexer) : Lexer by wf (remaining l) lt :=
  readIdentifier_loop l with inspect (String.get (pos l) (input l)) := {
    | exist _ None _ := l;
    | exist _ (Some ch) Hch :=
        if isLetter ch then readIdentifier_loop (advance l) else l }.
Proof. apply get_Some_lt in Hch. unfold remaining; simpl; lia. Qed.

(** The [for] loop of [readLiteral] (lines 174-176). *)
Equations? readLiteral_loop (l : Lexer) : Lexer by wf (remaining l) lt :=
  readLiteral_loop l with inspect (String.get (pos l) (input l)) := {
    | exist _ None _ := l;
    | exist _ (Some ch) Hch :=
        if isLetter ch || isDigit ch then readLiteral_loop (advance l) else l }.
Proof. apply get_Some_lt in Hch. unfold remaining; simpl; lia. Qed.

(** The slice expression [s[a:b]] with [a] given as [pos - 1]: it panics
    when [pos] is 0 (the lower bound is -1) or when [b] exceeds [len(s)];
    [a <= b] holds in both callers because the loops never move the cursor
    back. *)
Definition slice_from_previous (s : string) (p b : nat) : option string :=
  if (1 <=? p) && (p - 1 <=? b) && (b <=? String.length s)
  then Some (String.substring (p - 1) (b - (p - 1)) s)
  else None.

(** [readIdentifier] (lines 164-170) *)
Definition readIdentifier (l : Lexer) : option (string * Lexer) :=
  let p := pos l in
  let l := readIdentifier_loop l in
  let? word := slice_from_previous (input l) p (pos l) in
  Some (word, l).

(** [readLiteral] (lines 172-178) *)
Definition readLiteral (l : Lexer) : option (string * Lexer) :=
  let p := pos l in
  let l := readLiteral_loop l in
  let? word := slice_from_previous (input l) p (pos l) in
  Some (word, l).

(** ** [main] (lines 13-35)

    The process is run on its argument vector [Args] (the program name
    first) and on the file system, which is the function [ReadFile] from a
    file name to the bytes of the file or to the text of the error.  The
    result is what the process writes to standard output and its exit
    status: 1 for [os.Exit(1)], 0 when [main] returns, 2 for a run-time
    panic. *)

Definition newline : string := String nl EmptyString.

(** [fmt.Println] of one string. *)
Definition Println (s : string) : string := String.append s newline.

Section Main.

Variable ReadFile : string -> string + string.

Definition main (Args : list string) : string * nat :=
  if List.length Args <? 2 then
    (Println "Usage: honeycomb-linter <filename>", 1)
  else
    match nth_error Args 1 with
    | None => (EmptyString, 2)
    | Some definitionFile =>
        match ReadFile definitionFile with
        | inr err =>
            (Println (String.append "Error reading file: " err), 1)
        | inl definition =>
            let '(result, lines) := ParseCondition_run definition in
            let printed := String.concat "" (map Println lines) in
            match result with
            | None => (printed, 2)
            | Some (_, Some err) =>
                (String.append printed
                   (String.append "Invalid derived column definition in file "
                      (String.append definitionFile
                         (String.append ":"
                            (String.append newline
                               (String.append err newline))))), 1)
            | Some (_, None) =>
                (String.append printed (Println "Definition is valid!"), 0)
            end
        end
    end.

End Main.

(** ** Vocabulary of the claims *)

Definition first_token (tokens : list Token) : option Token := nth_error tokens 0.
Definition second_token (tokens : list Token) : option Token := nth_error tokens 1.
Definition last_token (tokens : list Token) : option Token :=
  nth_error tokens (List.length tokens - 1).

(** Success: the input comes back with the [nil] error. *)
Definition accepted (input : string) : option (string * option string) :=
  Some (input, None).

(** Failure: the empty string comes back with an error carrying [msg]. *)
Definition rejected (msg : string) : option (string * option string) :=
  Some ("", Some msg).

(** The diagnostics of [ParseCondition]. *)
Definition diagnostics : list string :=
  [ "Empty condition";
    "NOT operator must be followed by a condition";
    "Mismatched parentheses";
    "EXISTS operator must be followed by a field name";
    "IN operator must be followed by a field name";
    "=~ operator must be followed by a field name";
    "Invalid condition" ].

Fixpoint string_forall (p : ascii -> bool) (s : string) : bool :=
  match s with
  | EmptyString => true
  | String c s' => p c && string_forall p s'
  end.

(** The two-character operators as the specification lists them: first
    byte, second byte, the token when the second byte follows, and the token
    when it does not. *)
Definition lookahead_operators : list (ascii * ascii * Token * Token) :=
  [ ("="%char, "~"%char, REG_MATCH, EQUALS);
    ("!"%char, "="%char, NOT_EQUALS, NOT);
    ("<"%char, "="%char, LTE, LT);
    (">"%char, "="%char, GTE, GT) ].

(** * Properties *)

(** ** The token loop *)

Lemma tokens_loop_eq (l : Lexer) (tokens : list Token) (out : list string) :
  tokens_loop l tokens out =
  let '(token, l', o) := NextToken l in
  if Token_eq_dec token EOF then (tokens, out ++ o)
  else tokens_loop l' (tokens ++ [token]) (out ++ o).
Proof.
  funelim (tokens_loop l tokens out).
  - rewrite Hnext. simpl. rewrite Heq. reflexivity.
  - rewrite Hnext. simpl. rewrite Heq. reflexivity.
Qed.

(** Induction along the iterations of the token loop. *)
Lemma token_loop_ind (P : Lexer -> Prop) :
  (forall l,
      (forall tok l' o, NextToken l = (tok, l', o) -> tok <> EOF -> P l') ->
      P l) ->
  forall l, P l.
Proof.
  intros step l.
  induction l as [l IH] using (well_founded_induction (well_founded_ltof _ remaining)).
  apply step. intros tok l' o Hnext Hne.
  apply IH. unfold ltof. eapply NextToken_remaining; eassumption.
Qed.

(** The slice passed to the loop is a prefix of the slice it returns. *)
Lemma tokens_loop_app (l : Lexer) :
  forall tokens out,
    fst (tokens_loop l tokens out) = tokens ++ fst (tokens_loop l [] []).
Proof.
  induction l as [l IH] using token_loop_ind. intros tokens out.
  rewrite (tokens_loop_eq l tokens out), (tokens_loop_eq l [] []).
  destruct (NextToken l) as [[tok l'] o] eqn:Hnext.
  destruct (Token_eq_dec tok EOF) as [Heof|Hne].
  - simpl. rewrite app_nil_r. reflexivity.
  - rewrite (IH tok l' o eq_refl Hne (tokens ++ [tok])).
    rewrite (IH tok l' o eq_refl Hne ([] ++ [tok])).
    rewrite <- app_assoc. reflexivity.
Qed.

(** Each token appended to the slice costs at least one byte of input. *)
Lemma tokens_loop_length (l : Lexer) :
  forall tokens out,
    List.length (fst (tokens_loop l tokens out)) <= List.length tokens + remaining l.
Proof.
  induction l as [l IH] using token_loop_ind. intros tokens out.
  rewrite tokens_loop_eq.
  destruct (NextToken l) as [[tok l'] o] eqn:Hnext.
  destruct (Token_eq_dec tok EOF) as [Heof|Hne].
  - simpl. lia.
  - specialize (IH tok l' o eq_refl Hne (tokens ++ [tok]) (out ++ o)).
    pose proof (NextToken_remaining _ _ _ _ Hnext Hne).
    rewrite length_app in IH. simpl in IH. lia.
Qed.

Lemma ParseCondition_check (input : string) :
  ParseCondition input = check input (tokenize input).
Proof.
  unfold ParseCondition, ParseCondition_run, tokenize.
  destruct (tokens_loop (NewLexer input) [] []) as [tokens out]. reflexivity.
Qed.

Lemma tokenize_nil (input : string) (l' : Lexer) (o : list string) :
  NextToken (NewLexer input) = (EOF, l', o) -> tokenize input = [].
Proof.
  intros Hnext. unfold tokenize. rewrite tokens_loop_eq, Hnext. reflexivity.
Qed.

(** ** The scanner on white space and on the two-byte operators *)

Lemma string_forall_get (p : ascii -> bool) (s : string) :
  string_forall p s = true ->
  forall i c, String.get i s = Some c -> p c = true.
Proof.
  induction s as [|a s IH]; simpl; intros Hall i c Hg; [discriminate|].
  apply andb_true_iff in Hall. destruct Hall as [Ha Hs].
  destruct i as [|i]; [injection Hg as <-; assumption | eauto].
Qed.

Lemma skipWhitespace_all (l : Lexer) :
  string_forall isWhitespace (input l) = true ->
  String.get (pos (skipWhitespace l)) (input l) = None.
Proof.
  intros Hall. pose proof (skipWhitespace_stops l) as Hstop.
  destruct (String.get (pos (skipWhitespace l)) (input l)) as [ch|] eqn:Hg;
    [|reflexivity].
  rewrite (string_forall_get _ _ Hall _ _ Hg) in Hstop. discriminate.
Qed.

Lemma skipWhitespace_id (l : Lexer) (ch : ascii) :
  String.get (pos l) (input l) = Some ch -> isWhitespace ch = false ->
  skipWhitespace l = l.
Proof.
  intros Hg Hws. rewrite skipWhitespace_eq, Hg, inline_whitespace_test, Hws.
  reflexivity.
Qed.

Lemma peek_advance (l : Lexer) (c : ascii) :
  c <> zero ->
  (peek (advance l) =? c)%char = true <-> String.get (S (pos l)) (input l) = Some c.
Proof.
  intros Hc. unfold peek, advance; simpl. rewrite Ascii.eqb_eq.
  destruct (String.get (S (pos l)) (input l)); split; congruence.
Qed.

(** A lexer whose cursor is on the first byte of a two-byte operator. *)
Lemma NextToken_lookahead (c1 c2 : ascii) (t2 t1 : Token) (l : Lexer) :
  In (c1, c2, t2, t1) lookahead_operators ->
  String.get (pos l) (input l) = Some c1 ->
  NextToken l =
  if (peek (advance l) =? c2)%char then (t2, advance (advance l), [])
  else (t1, advance l, []).
Proof.
  intros Hin Hg. unfold NextToken.
  simpl in Hin.
  repeat (destruct Hin as [[= <- <- <- <-]|Hin];
          [rewrite (skipWhitespace_id l _ Hg eq_refl), Hg; reflexivity|]).
  contradiction.
Qed.

(** ** The checks on the token slice *)

(** Normal forms of [check] by the shape of the slice. *)
Ltac check_cases :=
  unfold check, first_token, second_token, last_token, accepted, rejected, Errorf in *;
  repeat match goal with
         | H : nth_error (_ :: _) 0 = Some _ |- _ => simpl in H; injection H as ->
         | H : nth_error (_ :: _ :: _) 1 = Some _ |- _ => simpl in H; injection H as ->
         end.

(** No index of [ParseCondition] is out of range, so the call never panics:
    it hands back the input, or the empty string with one of the
    diagnostics. *)
Lemma check_result (input : string) (tokens : list Token) :
  check input tokens = accepted input \/
  exists msg, In msg diagnostics /\ check input tokens = rejected msg.
Proof.
  assert (Hlast : forall (t : Token) r,
             nth_error (t :: r) (List.length (t :: r) - 1) <> None).
  { intros t r. apply nth_error_Some. simpl. lia. }
  unfold check, accepted, rejected, Errorf, diagnostics.
  destruct tokens as [|t [|t1 rest]].
  - right. eexists. split; [|reflexivity]. simpl; tauto.
  - destruct t; simpl; try (left; reflexivity);
      right; eexists; (split; [|reflexivity]); simpl; tauto.
  - specialize (Hlast t (t1 :: rest)).
    destruct (nth_error (t :: t1 :: rest) (List.length (t :: t1 :: rest) - 1)) as [tl|];
      [|congruence].
    destruct t; cbn [List.length Nat.eqb nth_error Token_eqb Token_eq_dec
                     Token_rec Token_rect sumbool_rec sumbool_rect];
      try (left; reflexivity);
      try (right; eexists; (split; [|reflexivity]); simpl; tauto);
      destruct t1; cbn; try (left; reflexivity);
      try (right; eexists; (split; [|reflexivity]); simpl; tauto);
      destruct tl; cbn; try (left; reflexivity);
      right; eexists; (split; [|reflexivity]); simpl; tauto.
Qed.

Lemma ParseCondition_no_panic (input : string) : ParseCondition input <> None.
Proof.
  rewrite ParseCondition_check.
  destruct (check_result input (tokenize input)) as [H|[msg [_ H]]];
    rewrite H; discriminate.
Qed.

(** * The claims *)

(** C1.  On ["EXISTS foo"] the lexer skips the space and reads [foo] as a
    word that is not a keyword, so the stream is [EXISTS; ILLEGAL]; the second
    token is not [WHITESPACE] and the call returns the error
    "EXISTS operator must be followed by a field name" (after printing
    [foo]).  The input is not accepted. *)
Theorem C1_EXISTS_foo_is_rejected :
  tokenize "EXISTS foo" = [EXISTS; ILLEGAL] /\
  ParseCondition_run "EXISTS foo" =
    (rejected "EXISTS operator must be followed by a field name", ["foo"]) /\
  ParseCondition "EXISTS foo" <> accepted "EXISTS foo".
Proof.
  split; [reflexivity|]. split; [reflexivity|].
  vm_compute. discriminate.
Qed.

(** C2.  When the stream is not empty and its first token is none of [NOT],
    [LPAREN], [EXISTS], [IN], [REG_MATCH], [ILLEGAL], the call succeeds and
    returns the input, whatever the rest of the stream is. *)
Theorem C2_other_first_token_accepted (input : string) (t : Token) :
  first_token (tokenize input) = Some t ->
  ~ In t [NOT; LPAREN; EXISTS; IN; REG_MATCH; ILLEGAL] ->
  ParseCondition input = accepted input.
Proof.
  intros Hfirst Hnot. rewrite ParseCondition_check.
  destruct (tokenize input) as [|t' rest]; [discriminate|].
  check_cases.
  destruct t; try reflexivity; exfalso; apply Hnot; simpl; tauto.
Qed.

Lemma C2_witness :
  first_token (tokenize "AND ) 1 , foo") = Some AND /\
  ParseCondition "AND ) 1 , foo" = accepted "AND ) 1 , foo".
Proof.
  split; [reflexivity|].
  apply (C2_other_first_token_accepted "AND ) 1 , foo" AND); [reflexivity|].
  simpl. intuition discriminate.
Defined.

(** C3.  When the first token is [NOT]: a stream of length 1 gives the error
    "NOT operator must be followed by a condition"; a second token [LPAREN]
    with a last token other than [RPAREN] gives "Mismatched parentheses";
    every other stream is accepted, and so is ["NOT (foo)"]. *)
Theorem C3_first_token_NOT :
  (forall input : string,
      first_token (tokenize input) = Some NOT ->
      (List.length (tokenize input) = 1 ->
       ParseCondition input =
         rejected "NOT operator must be followed by a condition") /\
      (second_token (tokenize input) = Some LPAREN ->
       last_token (tokenize input) <> Some RPAREN ->
       ParseCondition input = rejected "Mismatched parentheses") /\
      (List.length (tokenize input) <> 1 ->
       ~ (second_token (tokenize input) = Some LPAREN /\
          last_token (tokenize input) <> Some RPAREN) ->
       ParseCondition input = accepted input)) /\
  ParseCondition "NOT (foo)" = accepted "NOT (foo)".
Proof.
  split; [|reflexivity].
  intros input Hfirst. rewrite ParseCondition_check.
  destruct (tokenize input) as [|t rest]; [discriminate|].
  check_cases.
  destruct rest as [|t1 rest].
  - split; [|split]; [reflexivity | discriminate | simpl; congruence].
  - split; [|split].
    + simpl; discriminate.
    + intros H1 Hlast. simpl in H1. injection H1 as ->.
      destruct (nth_error (NOT :: LPAREN :: rest)
                  (List.length (NOT :: LPAREN :: rest) - 1)) as [tl|] eqn:E.
      * cbn [List.length Nat.eqb nth_error Token_eqb Token_eq_dec
             Token_rec Token_rect sumbool_rec sumbool_rect].
        destruct tl; try reflexivity. congruence.
      * apply nth_error_None in E. simpl in E. lia.
    + intros _ Hnot.
      destruct (nth_error (NOT :: t1 :: rest)
                  (List.length (NOT :: t1 :: rest) - 1)) as [tl|] eqn:E.
      * cbn [List.length Nat.eqb nth_error Token_eqb Token_eq_dec
             Token_rec Token_rect sumbool_rec sumbool_rect].
        destruct t1; try reflexivity.
        destruct tl; try reflexivity;
          exfalso; apply Hnot; (split; [reflexivity | discriminate]).
      * apply nth_error_None in E. simpl in E. lia.
Qed.

Lemma C3_witness :
  ParseCondition "NOT" = rejected "NOT operator must be followed by a condition" /\
  ParseCondition "NOT (foo" = rejected "Mismatched parentheses" /\
  ParseCondition "NOT = ) (" = accepted "NOT = ) (".
Proof.
  split; [|split].
  - apply (proj1 C3_first_token_NOT "NOT"); reflexivity.
  - apply (proj1 C3_first_token_NOT "NOT (foo");
      [reflexivity | reflexivity | vm_compute; discriminate].
  - apply (proj1 C3_first_token_NOT "NOT = ) (");
      [reflexivity | vm_compute; discriminate |].
    vm_compute. intros [H _]. discriminate.
Defined.

(** C4.  An input made only of spaces, tabs, carriage returns and newlines
    (the empty input included) has the empty token stream and is rejected
    with "Empty condition". *)
Theorem C4_whitespace_only_is_empty_condition (input : string) :
  string_forall isWhitespace input = true ->
  tokenize input = [] /\ ParseCondition input = rejected "Empty condition".
Proof.
  intros Hall.
  assert (Hnil : tokenize input = []).
  { pose proof (skipWhitespace_all (NewLexer input) Hall) as Hg.
    apply (tokenize_nil input (skipWhitespace (NewLexer input)) []).
    unfold NextToken. rewrite skipWhitespace_input, Hg. reflexivity. }
  split; [assumption|].
  rewrite ParseCondition_check, Hnil. reflexivity.
Qed.

Lemma C4_witness :
  tokenize (String " " (String tab (String cr (String nl "")))) = [] /\
  ParseCondition (String " " (String tab (String cr (String nl "")))) =
    rejected "Empty condition" /\
  ParseCondition "" = rejected "Empty condition".
Proof.
  split; [|split].
  - apply (C4_whitespace_only_is_empty_condition
             (String " " (String tab (String cr (String nl ""))))).
    reflexivity.
  - apply (C4_whitespace_only_is_empty_condition
             (String " " (String tab (String cr (String nl ""))))).
    reflexivity.
  - apply (C4_whitespace_only_is_empty_condition ""). reflexivity.
Defined.

(** C5.  When the first token is [LPAREN], the call fails with
    "Mismatched parentheses" exactly when the last token is not [RPAREN], and
    succeeds otherwise; ["(A AND B"] is rejected with that message. *)
Theorem C5_first_token_LPAREN :
  (forall input : string,
      first_token (tokenize input) = Some LPAREN ->
      (ParseCondition input = rejected "Mismatched parentheses" <->
       last_token (tokenize input) <> Some RPAREN) /\
      (last_token (tokenize input) = Some RPAREN ->
       ParseCondition input = accepted input)) /\
  ParseCondition "(A AND B" = rejected "Mismatched parentheses".
Proof.
  split; [|reflexivity].
  intros input Hfirst. rewrite ParseCondition_check.
  destruct (tokenize input) as [|t rest]; [discriminate|].
  check_cases.
  destruct (nth_error (LPAREN :: rest) (List.length (LPAREN :: rest) - 1))
    as [tl|] eqn:E.
  - cbn [List.length Nat.eqb nth_error Token_eqb Token_eq_dec
         Token_rec Token_rect sumbool_rec sumbool_rect].
    destruct tl; cbn; (split; [split|]); congruence.
  - apply nth_error_None in E. simpl in E. lia.
Qed.

Lemma C5_witness :
  ParseCondition "( = , (" = rejected "Mismatched parentheses" /\
  ParseCondition "( = , )" = accepted "( = , )".
Proof.
  split.
  - apply (proj1 (proj1 C5_first_token_LPAREN "( = , (" eq_refl)).
    vm_compute. discriminate.
  - apply (proj2 (proj1 C5_first_token_LPAREN "( = , )" eq_refl)).
    reflexivity.
Defined.

(** C6.  With the cursor on [=], [!], [<] or [>], [NextToken] looks at the
    next byte: when it is [~], [=], [=], [=] respectively the token is
    [REG_MATCH], [NOT_EQUALS], [LTE], [GTE] and the cursor moves by two bytes;
    otherwise the token is [EQUALS], [NOT], [LT], [GT] and the cursor moves by
    one byte only.  Nothing is printed. *)
Theorem C6_two_character_lookahead
  (c1 c2 : ascii) (two one : Token) (l : Lexer) :
  In (c1, c2, two, one) lookahead_operators ->
  String.get (pos l) (input l) = Some c1 ->
  (String.get (S (pos l)) (input l) = Some c2 ->
   NextToken l = (two, {| input := input l; pos := pos l + 2 |}, [])) /\
  (String.get (S (pos l)) (input l) <> Some c2 ->
   NextToken l = (one, {| input := input l; pos := pos l + 1 |}, [])).
Proof.
  intros Hin Hg.
  rewrite (NextToken_lookahead c1 c2 two one l Hin Hg).
  assert (Hc2 : c2 <> zero).
  { simpl in Hin. intuition (try congruence);
      match goal with H : (_, _, _, _) = _ |- _ => injection H as _ <- _ _ end;
      discriminate. }
  pose proof (peek_advance l c2 Hc2) as Hpk.
  replace (pos l + 2) with (S (S (pos l))) by lia.
  replace (pos l + 1) with (S (pos l)) by lia.
  destruct (peek (advance l) =? c2)%char eqn:E.
  - split; intros Hnext; [reflexivity|].
    exfalso. apply Hnext, Hpk. reflexivity.
  - split; intros Hnext; [|reflexivity].
    apply Hpk in Hnext. congruence.
Qed.

Lemma C6_witness :
  NextToken {| input := "a<=b"; pos := 1 |} =
    (LTE, {| input := "a<=b"; pos := 3 |}, []) /\
  NextToken {| input := "a<b"; pos := 1 |} =
    (LT, {| input := "a<b"; pos := 2 |}, []) /\
  NextToken {| input := "="; pos := 0 |} =
    (EQUALS, {| input := "="; pos := 1 |}, []).
Proof.
  split; [|split].
  - apply (C6_two_character_lookahead "<" "=" LTE LT {| input := "a<=b"; pos := 1 |});
      [simpl; tauto | reflexivity | reflexivity].
  - apply (C6_two_character_lookahead "<" "=" LTE LT {| input := "a<b"; pos := 1 |});
      [simpl; tauto | reflexivity | simpl; discriminate].
  - apply (C6_two_character_lookahead "=" "~" REG_MATCH EQUALS {| input := "="; pos := 0 |});
      [simpl; tauto | reflexivity | simpl; discriminate].
Defined.

(** C7.  Tokenization is a total function (its loop is defined by
    well-founded recursion on the bytes left after the cursor, and the lexer
    has no failing operation), and the stream has at most as many tokens as
    the input has bytes. *)
Theorem C7_token_count_bounded (s : string) :
  List.length (tokenize s) <= String.length s.
Proof.
  unfold tokenize.
  pose proof (tokens_loop_length (NewLexer s) [] []) as H.
  unfold remaining in H. simpl in H. lia.
Qed.

(** C8.  When the call succeeds (the error is [nil]), the string it returns
    is the input itself. *)
Theorem C8_success_returns_input (input r : string) :
  ParseCondition input = Some (r, None) -> r = input.
Proof.
  rewrite ParseCondition_check.
  destruct (check_result input (tokenize input)) as [H|[msg [_ H]]];
    rewrite H; unfold accepted, rejected; congruence.
Qed.

Lemma C8_witness :
  exists r : string,
    ParseCondition "  = 1 , x " = Some (r, None) /\ r = "  = 1 , x ".
Proof.
  exists "  = 1 , x ". split; [reflexivity|].
  apply (C8_success_returns_input "  = 1 , x " "  = 1 , x "). reflexivity.
Defined.

(** C9.  When the first token is [EXISTS], [IN] or [REG_MATCH] and the
    second is [WHITESPACE] (the token of a comma), the call succeeds,
    whatever follows: ["EXISTS ,"] and ["IN ,"], where nothing follows the
    comma, are accepted. *)
Theorem C9_separator_after_operator_accepted :
  (forall (input : string) (t : Token),
      first_token (tokenize input) = Some t ->
      In t [EXISTS; IN; REG_MATCH] ->
      second_token (tokenize input) = Some WHITESPACE ->
      ParseCondition input = accepted input) /\
  tokenize "EXISTS ," = [EXISTS; WHITESPACE] /\
  ParseCondition "EXISTS ," = accepted "EXISTS ," /\
  tokenize "IN ," = [IN; WHITESPACE] /\
  ParseCondition "IN ," = accepted "IN ,".
Proof.
  split; [|repeat split; reflexivity].
  intros input t Hfirst Hin Hsecond. rewrite ParseCondition_check.
  destruct (tokenize input) as [|t0 [|t1 rest]]; try discriminate.
  check_cases.
  simpl in Hin. destruct Hin as [<-|[<-|[<-|[]]]]; reflexivity.
Qed.

Lemma C9_witness :
  ParseCondition "=~ ," = accepted "=~ ," /\
  ParseCondition "EXISTS , , )" = accepted "EXISTS , , )".
Proof.
  split.
  - apply (proj1 C9_separator_after_operator_accepted "=~ ," REG_MATCH);
      [reflexivity | simpl; tauto | reflexivity].
  - apply (proj1 C9_separator_after_operator_accepted "EXISTS , , )" EXISTS);
      [reflexivity | simpl; tauto | reflexivity].
Defined.

(** C10.  A [!] that is not followed by [=] is the token [NOT], the token of
    the keyword [NOT]; the input ["!"] has the stream [NOT] and is rejected
    with "NOT operator must be followed by a condition". *)
Theorem C10_bang_is_NOT :
  (forall l : Lexer,
      String.get (pos l) (input l) = Some "!"%char ->
      String.get (S (pos l)) (input l) <> Some "="%char ->
      NextToken l = (NOT, {| input := input l; pos := pos l + 1 |}, [])) /\
  tokenize "!" = [NOT] /\
  tokenize "NOT" = [NOT] /\
  ParseCondition "!" = rejected "NOT operator must be followed by a condition".
Proof.
  split; [|repeat split; reflexivity].
  intros l Hg Hnext.
  rewrite (NextToken_lookahead "!" "=" NOT_EQUALS NOT l); [|simpl; tauto|assumption].
  destruct (peek (advance l) =? "=")%char eqn:E.
  - apply peek_advance in E; [contradiction | discriminate].
  - unfold advance. replace (pos l + 1) with (S (pos l)) by lia. reflexivity.
Qed.

Lemma C10_witness :
  NextToken {| input := "! x"; pos := 0 |} =
    (NOT, {| input := "! x"; pos := 1 |}, []).
Proof.
  apply (proj1 C10_bang_is_NOT {| input := "! x"; pos := 0 |});
    [reflexivity | simpl; discriminate].
Defined.

(** * Further properties *)

(** ** Bytes of a concatenation *)

Lemma get_app_l (a b : string) (i : nat) :
  i < String.length a -> String.get i (String.append a b) = String.get i a.
Proof. intros H. symmetry. apply append_correct1. assumption. Qed.

Lemma get_app_r (a b : string) (i : nat) :
  String.get (String.length a + i) (String.append a b) = String.get i b.
Proof. rewrite Nat.add_comm. symmetry. apply append_correct2. Qed.

Lemma length_app_string (a b : string) :
  String.length (String.append a b) = String.length a + String.length b.
Proof. induction a as [|c a IH]; simpl; [reflexivity | rewrite IH; reflexivity]. Qed.

Lemma get_None_length (s : string) (i : nat) :
  String.get i s = None <-> String.length s <= i.
Proof.
  revert i; induction s as [|c s IH]; intros [|i]; simpl;
    try (split; [intros _; lia | reflexivity]);
    try (split; [discriminate | lia]).
  rewrite IH. lia.
Qed.

Lemma substring_app_r (a b : string) (n m : nat) :
  String.substring (String.length a + n) m (String.append a b) =
  String.substring n m b.
Proof. induction a as [|c a IH]; simpl; [reflexivity | assumption]. Qed.

Lemma substring_app_l (a b : string) (n m : nat) :
  n + m <= String.length a ->
  String.substring n m (String.append a b) = String.substring n m a.
Proof.
  revert n m; induction a as [|c a IH]; intros n m H; simpl in *.
  - assert (n = 0) by lia. assert (m = 0) by lia. subst.
    destruct b; reflexivity.
  - destruct n as [|n].
    + destruct m as [|m]; [reflexivity|]. f_equal. apply IH. lia.
    + apply IH. lia.
Qed.

Lemma substring_prefix (a b : string) :
  String.substring 0 (String.length a) (String.append a b) = a.
Proof. induction a as [|c a IH]; simpl; [destruct b; reflexivity | rewrite IH; reflexivity]. Qed.

(** ** The scanning loops

    [skipWhitespace] and the loops of [readKeyword], [readIdentifier] and
    [readLiteral] move the cursor while the byte under it is in a class [p].
    [scan_end p s i] is where such a loop stops when it starts at index [i]
    of [s]: the first index from [i] on whose byte is not in [p], or the end
    of [s] ([i] itself when it is beyond the end). *)

Fixpoint scan_end (p : ascii -> bool) (s : string) (i : nat) : nat :=
  match s with
  | EmptyString => i
  | String c s' =>
      match i with
      | 0 => if p c then S (scan_end p s' 0) else 0
      | S i' => S (scan_end p s' i')
      end
  end.

Lemma scan_end_None (p : ascii -> bool) (s : string) (i : nat) :
  String.get i s = None -> scan_end p s i = i.
Proof.
  revert i; induction s as [|c s IH]; intros [|i] H; simpl in *;
    try reflexivity; try discriminate.
  rewrite IH; [reflexivity | assumption].
Qed.

Lemma scan_end_Some (p : ascii -> bool) (s : string) (i : nat) (c : ascii) :
  String.get i s = Some c ->
  scan_end p s i = if p c then scan_end p s (S i) else i.
Proof.
  revert i; induction s as [|a s IH]; intros [|i] H; simpl in *;
    try discriminate.
  - injection H as ->. destruct (p c); reflexivity.
  - rewrite (IH i H). destruct (p c); reflexivity.
Qed.

Lemma scan_end_ge (p : ascii -> bool) (s : string) (i : nat) :
  i <= scan_end p s i.
Proof.
  revert i; induction s as [|c s IH]; intros [|i]; simpl; try lia.
  specialize (IH i). lia.
Qed.

Lemma scan_end_le (p : ascii -> bool) (s : string) (i : nat) :
  i <= String.length s -> scan_end p s i <= String.length s.
Proof.
  revert i; induction s as [|c s IH]; intros [|i] H; simpl in *; try lia.
  - destruct (p c); [specialize (IH 0); lia | lia].
  - specialize (IH i). lia.
Qed.

(** The byte on which the scan stops is not in the class. *)
Lemma scan_end_stop (p : ascii -> bool) (s : string) (i : nat) (c : ascii) :
  String.get (scan_end p s i) s = Some c -> p c = false.
Proof.
  revert i; induction s as [|a s IH]; intros [|i]; simpl; try discriminate.
  - destruct (p a) eqn:E; simpl.
    + apply IH.
    + intros [= <-]. assumption.
  - apply IH.
Qed.

(** Every byte the scan passes is in the class. *)
Lemma scan_end_passed (p : ascii -> bool) (s : string) (i j : nat) :
  i <= j < scan_end p s i ->
  exists c, String.get j s = Some c /\ p c = true.
Proof.
  revert i j; induction s as [|a s IH]; intros [|i] [|j]; simpl; try lia.
  - destruct (p a) eqn:E; [|lia]. intros _. exists a. split; [reflexivity|assumption].
  - destruct (p a) eqn:E; [|lia]. intros H. apply (IH 0 j). lia.
  - intros H. apply (IH i j). lia.
Qed.

(** The stop is the only index with these two properties. *)
Lemma scan_end_unique (p : ascii -> bool) (s : string) (i n : nat) :
  i <= n ->
  (forall j, i <= j < n -> exists c, String.get j s = Some c /\ p c = true) ->
  (forall c, String.get n s = Some c -> p c = false) ->
  scan_end p s i = n.
Proof.
  intros Hin Hpass Hstop.
  destruct (Nat.lt_trichotomy (scan_end p s i) n) as [Hlt|[Heq|Hgt]];
    [|assumption|].
  - destruct (Hpass (scan_end p s i)) as [c [Hg Hp]];
      [pose proof (scan_end_ge p s i); lia|].
    rewrite (scan_end_stop p s i c Hg) in Hp. discriminate.
  - destruct (scan_end_passed p s i n) as [c [Hg Hp]]; [lia|].
    rewrite (Hstop c Hg) in Hp. discriminate.
Qed.

Lemma scan_end_idem (p : ascii -> bool) (s : string) (i : nat) :
  scan_end p s (scan_end p s i) = scan_end p s i.
Proof.
  destruct (String.get (scan_end p s i) s) as [c|] eqn:Hg.
  - rewrite (scan_end_Some p s _ c Hg), (scan_end_stop p s i c Hg). reflexivity.
  - apply scan_end_None. assumption.
Qed.

(** Scanning does not depend on what lies before the cursor. *)
Lemma scan_end_app_r (p : ascii -> bool) (a b : string) (i : nat) :
  scan_end p (String.append a b) (String.length a + i) =
  String.length a + scan_end p b i.
Proof. induction a as [|c a IH]; simpl; [reflexivity | rewrite IH; reflexivity]. Qed.

(** Scanning inside [a] does not depend on a continuation that starts with
    a byte outside the class. *)
Lemma scan_end_app_l (p : ascii -> bool) (a b : string) (i : nat) :
  i <= String.length a ->
  (forall c, String.get 0 b = Some c -> p c = false) ->
  scan_end p (String.append a b) i = scan_end p a i.
Proof.
  intros Hi Hb. apply scan_end_unique.
  - apply scan_end_ge.
  - intros j Hj. destruct (scan_end_passed p a i j Hj) as [c [Hg Hp]].
    exists c. split; [|assumption].
    rewrite get_app_l; [assumption | eapply get_Some_lt; eassumption].
  - intros c Hg. pose proof (scan_end_le p a i Hi) as Hle.
    destruct (Nat.eq_dec (scan_end p a i) (String.length a)) as [E|E].
    + rewrite E in Hg. rewrite <- (Nat.add_0_r (String.length a)) in Hg.
      rewrite get_app_r in Hg. apply Hb. assumption.
    + rewrite get_app_l in Hg by lia. eapply scan_end_stop; eassumption.
Qed.

(** A larger class carries the cursor at least as far. *)
Lemma scan_end_mono (p q : ascii -> bool) (s : string) (i : nat) :
  (forall c, p c = true -> q c = true) ->
  scan_end p s i <= scan_end q s i.
Proof.
  intros Hpq. revert i; induction s as [|c s IH]; intros [|i]; simpl; try lia.
  - destruct (p c) eqn:E; [rewrite (Hpq c E); specialize (IH 0); lia | lia].
  - specialize (IH i). lia.
Qed.

Lemma Lexer_eta (l : Lexer) : {| input := input l; pos := pos l |} = l.
Proof. destruct l; reflexivity. Qed.

Lemma skipWhitespace_scan (l : Lexer) :
  skipWhitespace l =
  {| input := input l; pos := scan_end isWhitespace (input l) (pos l) |}.
Proof.
  funelim (skipWhitespace l).
  - rewrite inline_whitespace_test, (scan_end_Some _ _ _ ch Hch).
    destruct (isWhitespace ch); simpl; [assumption | symmetry; apply Lexer_eta].
  - rewrite (scan_end_None _ _ _ e). symmetry; apply Lexer_eta.
Qed.

Lemma readKeyword_loop_scan (l : Lexer) :
  readKeyword_loop l =
  {| input := input l; pos := scan_end isLetter (input l) (pos l) |}.
Proof.
  funelim (readKeyword_loop l).
  - rewrite (scan_end_Some _ _ _ ch Hch).
    destruct (isLetter ch); simpl; [assumption | symmetry; apply Lexer_eta].
  - rewrite (scan_end_None _ _ _ e). symmetry; apply Lexer_eta.
Qed.

Lemma readIdentifier_loop_scan (l : Lexer) :
  readIdentifier_loop l =
  {| input := input l; pos := scan_end isLetter (input l) (pos l) |}.
Proof.
  funelim (readIdentifier_loop l).
  - rewrite (scan_end_Some _ _ _ ch Hch).
    destruct (isLetter ch); simpl; [assumption | symmetry; apply Lexer_eta].
  - rewrite (scan_end_None _ _ _ e). symmetry; apply Lexer_eta.
Qed.

Definition isLetterOrDigit (ch : ascii) : bool := isLetter ch || isDigit ch.

Lemma readLiteral_loop_scan (l : Lexer) :
  readLiteral_loop l =
  {| input := input l; pos := scan_end isLetterOrDigit (input l) (pos l) |}.
Proof.
  funelim (readLiteral_loop l).
  - rewrite (scan_end_Some _ _ _ ch Hch). unfold isLetterOrDigit at 1.
    destruct (isLetter ch || isDigit ch); simpl;
      [assumption | symmetry; apply Lexer_eta].
  - rewrite (scan_end_None _ _ _ e). symmetry; apply Lexer_eta.
Qed.

Lemma string_forall_iff (p : ascii -> bool) (s : string) :
  string_forall p s = true <->
  (forall i c, String.get i s = Some c -> p c = true).
Proof.
  split; [apply string_forall_get|].
  induction s as [|a s IH]; intros H; simpl; [reflexivity|].
  apply andb_true_iff. split.
  - apply (H 0 a). reflexivity.
  - apply IH. intros i c Hg. apply (H (S i) c). assumption.
Qed.

Lemma substring_length (s : string) (n m : nat) :
  n + m <= String.length s -> String.length (String.substring n m s) = m.
Proof.
  revert n m; induction s as [|a s IH]; intros [|n] [|m] H; simpl in *;
    try reflexivity; try lia.
  - rewrite IH; [reflexivity | lia].
  - apply IH. lia.
  - apply IH. lia.
Qed.

(** ** [skipWhitespace] *)

(** X1.  [skipWhitespace] keeps the input and moves the cursor forward to the
    first byte at or after it that is not a space, tab, carriage return or
    newline (or to the end of the input): every byte it passes is white
    space, the byte it stops on is not, and a cursor inside the input stays
    inside. *)
Theorem skipWhitespace_first_other_byte (l : Lexer) :
  input (skipWhitespace l) = input l /\
  pos l <= pos (skipWhitespace l) /\
  (forall j, pos l <= j < pos (skipWhitespace l) ->
             exists c, String.get j (input l) = Some c /\ isWhitespace c = true) /\
  (forall c, String.get (pos (skipWhitespace l)) (input l) = Some c ->
             isWhitespace c = false) /\
  (pos l <= String.length (input l) ->
   pos (skipWhitespace l) <= String.length (input l)).
Proof.
  rewrite skipWhitespace_scan; simpl.
  split; [reflexivity|]. split; [apply scan_end_ge|].
  split; [apply scan_end_passed|]. split; [apply scan_end_stop|].
  apply scan_end_le.
Qed.

Lemma skipWhitespace_first_other_byte_witness :
  pos (skipWhitespace {| input := "a   b"; pos := 1 |}) = 4 /\
  exists c, String.get 2 "a   b" = Some c /\ isWhitespace c = true.
Proof.
  split; [reflexivity|].
  apply (proj1 (proj2 (proj2 (skipWhitespace_first_other_byte
                                {| input := "a   b"; pos := 1 |}))) 2).
  split; [simpl; lia | vm_compute; lia].
Defined.

(** X2.  Skipping white space twice is skipping it once. *)
Theorem skipWhitespace_idempotent (l : Lexer) :
  skipWhitespace (skipWhitespace l) = skipWhitespace l.
Proof.
  rewrite (skipWhitespace_scan l), skipWhitespace_scan; simpl.
  rewrite scan_end_idem. reflexivity.
Qed.

(** ** [readIdentifier] and [readLiteral] *)

Lemma slice_from_previous_None (s : string) (p b : nat) :
  p <= b -> (p <= String.length s -> b <= String.length s) ->
  slice_from_previous s p b = None <-> p = 0 \/ String.length s < p.
Proof.
  intros Hpb Hb. unfold slice_from_previous.
  destruct (1 <=? p) eqn:E1; simpl.
  - apply Nat.leb_le in E1.
    assert (E2 : (p - 1 <=? b) = true) by (apply Nat.leb_le; lia).
    rewrite E2; simpl.
    destruct (b <=? String.length s) eqn:E3.
    + apply Nat.leb_le in E3. split; [discriminate | lia].
    + apply Nat.leb_gt in E3. split; [intros _; lia | reflexivity].
  - apply Nat.leb_gt in E1. split; [intros _; lia | reflexivity].
Qed.

Lemma slice_from_previous_Some (s : string) (p b : nat) (w : string) :
  slice_from_previous s p b = Some w ->
  1 <= p /\ p - 1 <= b /\ b <= String.length s /\
  w = String.substring (p - 1) (b - (p - 1)) s.
Proof.
  unfold slice_from_previous.
  destruct (1 <=? p) eqn:E1; [|discriminate].
  destruct (p - 1 <=? b) eqn:E2; [|discriminate].
  destruct (b <=? String.length s) eqn:E3; [|discriminate].
  simpl. intros [= <-].
  apply Nat.leb_le in E1, E2, E3. auto.
Qed.

(** X3.  [readIdentifier] and [readLiteral] panic exactly when the cursor is at
    index 0 (there is no byte before it) or beyond the end of the input. *)
Theorem readIdentifier_readLiteral_panic (l : Lexer) :
  (readIdentifier l = None <-> pos l = 0 \/ String.length (input l) < pos l) /\
  (readLiteral l = None <-> pos l = 0 \/ String.length (input l) < pos l).
Proof.
  unfold readIdentifier, readLiteral.
  rewrite readIdentifier_loop_scan, readLiteral_loop_scan; simpl.
  pose proof (slice_from_previous_None (input l) (pos l)
                (scan_end isLetter (input l) (pos l))
                (scan_end_ge _ _ _) (scan_end_le _ _ _)) as H1.
  pose proof (slice_from_previous_None (input l) (pos l)
                (scan_end isLetterOrDigit (input l) (pos l))
                (scan_end_ge _ _ _) (scan_end_le _ _ _)) as H2.
  split.
  - destruct (slice_from_previous _ _ (scan_end isLetter _ _)).
    + split; [discriminate | intros H; apply H1 in H; discriminate].
    + split; [intros _; apply H1; reflexivity | reflexivity].
  - destruct (slice_from_previous _ _ (scan_end isLetterOrDigit _ _)).
    + split; [discriminate | intros H; apply H2 in H; discriminate].
    + split; [intros _; apply H2; reflexivity | reflexivity].
Qed.

(** What a scan from the byte after [p - 1] returns as its slice: the byte
    at [p - 1] followed by the bytes the scan passed. *)
Lemma scanned_slice (q : ascii -> bool) (s : string) (p : nat) (w : string) :
  slice_from_previous s p (scan_end q s p) = Some w ->
  String.length w = scan_end q s p - p + 1 /\
  (forall i, i < String.length w -> String.get i w = String.get (p - 1 + i) s) /\
  (forall i c, 1 <= i -> String.get i w = Some c -> q c = true).
Proof.
  intros H. apply slice_from_previous_Some in H.
  destruct H as [Hp [_ [Hb ->]]].
  pose proof (scan_end_ge q s p) as Hge.
  assert (Hlen : String.length
                   (String.substring (p - 1) (scan_end q s p - (p - 1)) s) =
                 scan_end q s p - p + 1).
  { rewrite substring_length; lia. }
  split; [assumption|]. split.
  - intros i Hi. rewrite Hlen in Hi.
    rewrite substring_correct1 by lia. f_equal. lia.
  - intros i c Hi Hg.
    assert (Hlt : i < scan_end q s p - (p - 1)).
    { apply get_Some_lt in Hg. rewrite Hlen in Hg. lia. }
    rewrite substring_correct1 in Hg by assumption.
    destruct (scan_end_passed q s p (i + (p - 1))) as [c' [Hg' Hq]]; [lia|].
    congruence.
Qed.

(** X4.  When [readIdentifier] returns, the input is unchanged, the cursor has
    moved forward to the first byte that is not a letter, and the string
    returned is the slice of the input from the byte before the old cursor
    to the new cursor: all its bytes after the first are letters. *)
Theorem readIdentifier_returns_the_word (l l' : Lexer) (w : string) :
  readIdentifier l = Some (w, l') ->
  input l' = input l /\
  pos l <= pos l' <= String.length (input l) /\
  (forall c, String.get (pos l') (input l) = Some c -> isLetter c = false) /\
  String.length w = pos l' - pos l + 1 /\
  (forall i, i < String.length w ->
             String.get i w = String.get (pos l - 1 + i) (input l)) /\
  (forall i c, 1 <= i -> String.get i w = Some c -> isLetter c = true).
Proof.
  unfold readIdentifier. rewrite readIdentifier_loop_scan; simpl.
  destruct (slice_from_previous (input l) (pos l)
              (scan_end isLetter (input l) (pos l))) as [w'|] eqn:E;
    [|discriminate].
  intros [= <- <-]; simpl.
  pose proof (slice_from_previous_Some _ _ _ _ E) as [_ [_ [Hb _]]].
  split; [reflexivity|].
  split; [split; [apply scan_end_ge | assumption]|].
  split; [apply scan_end_stop|].
  apply scanned_slice. assumption.
Qed.

Lemma readIdentifier_returns_the_word_witness :
  readIdentifier {| input := "x = fooBar1"; pos := 5 |} =
    Some ("fooBar", {| input := "x = fooBar1"; pos := 10 |}) /\
  String.length "fooBar" = 10 - 5 + 1.
Proof.
  split; [reflexivity|].
  apply (readIdentifier_returns_the_word
           {| input := "x = fooBar1"; pos := 5 |}
           {| input := "x = fooBar1"; pos := 10 |} "fooBar").
  reflexivity.
Defined.

(** X5.  When [readLiteral] returns, the input is unchanged, the cursor has
    moved forward to the first byte that is neither a letter nor a digit,
    and the string returned is the slice of the input from the byte before
    the old cursor to the new cursor: all its bytes after the first are
    letters or digits. *)
Theorem readLiteral_returns_the_literal (l l' : Lexer) (w : string) :
  readLiteral l = Some (w, l') ->
  input l' = input l /\
  pos l <= pos l' <= String.length (input l) /\
  (forall c, String.get (pos l') (input l) = Some c ->
             isLetter c = false /\ isDigit c = false) /\
  String.length w = pos l' - pos l + 1 /\
  (forall i, i < String.length w ->
             String.get i w = String.get (pos l - 1 + i) (input l)) /\
  (forall i c, 1 <= i -> String.get i w = Some c ->
               isLetter c = true \/ isDigit c = true).
Proof.
  unfold readLiteral. rewrite readLiteral_loop_scan; simpl.
  destruct (slice_from_previous (input l) (pos l)
              (scan_end isLetterOrDigit (input l) (pos l))) as [w'|] eqn:E;
    [|discriminate].
  intros [= <- <-]; simpl.
  pose proof (slice_from_previous_Some _ _ _ _ E) as [_ [_ [Hb _]]].
  pose proof (scanned_slice _ _ _ _ E) as [Hlen [Hget Hall]].
  split; [reflexivity|].
  split; [split; [apply scan_end_ge | assumption]|].
  split.
  { intros c Hg. apply scan_end_stop in Hg. unfold isLetterOrDigit in Hg.
    apply orb_false_iff in Hg. assumption. }
  split; [assumption|]. split; [assumption|].
  intros i c Hi Hg. apply orb_true_iff. apply (Hall i c Hi Hg).
Qed.

Lemma readLiteral_returns_the_literal_witness :
  readLiteral {| input := "x = fooBar1,"; pos := 5 |} =
    Some ("fooBar1", {| input := "x = fooBar1,"; pos := 11 |}) /\
  String.length "fooBar1" = 11 - 5 + 1.
Proof.
  split; [reflexivity|].
  apply (readLiteral_returns_the_literal
           {| input := "x = fooBar1,"; pos := 5 |}
           {| input := "x = fooBar1,"; pos := 11 |} "fooBar1").
  reflexivity.
Defined.

Lemma readIdentifier_readLiteral_panic_witness :
  readIdentifier (NewLexer "abc") = None /\
  readLiteral {| input := "abc"; pos := 4 |} = None.
Proof.
  split.
  - apply (proj1 (readIdentifier_readLiteral_panic (NewLexer "abc"))).
    left. reflexivity.
  - apply (proj2 (readIdentifier_readLiteral_panic {| input := "abc"; pos := 4 |})).
    right. simpl. lia.
Defined.

Lemma prefix_nil (s : string) : String.prefix EmptyString s = true.
Proof. destruct s; reflexivity. Qed.

Lemma substring_prefix_mono (s : string) (n m m' : nat) :
  m <= m' ->
  String.prefix (String.substring n m s) (String.substring n m' s) = true.
Proof.
  revert n m m'; induction s as [|a s IH]; intros n m m' H.
  - destruct n, m, m'; reflexivity.
  - destruct n as [|n]; simpl.
    + destruct m as [|m]; [apply prefix_nil|].
      destruct m' as [|m']; [lia|]. simpl.
      destruct (ascii_dec a a); [|congruence]. apply IH. lia.
    + apply IH. assumption.
Qed.

(** X6.  From the same lexer [readLiteral] goes at least as far as
    [readIdentifier], and the identifier is a prefix of the literal. *)
Theorem readLiteral_extends_readIdentifier
  (l l1 l2 : Lexer) (w v : string) :
  readIdentifier l = Some (w, l1) ->
  readLiteral l = Some (v, l2) ->
  pos l1 <= pos l2 /\ String.prefix w v = true.
Proof.
  unfold readIdentifier, readLiteral.
  rewrite readIdentifier_loop_scan, readLiteral_loop_scan; simpl.
  destruct (slice_from_previous _ _ (scan_end isLetter _ _)) as [w'|] eqn:E1;
    [|discriminate].
  destruct (slice_from_previous _ _ (scan_end isLetterOrDigit _ _)) as [v'|] eqn:E2;
    [|discriminate].
  intros [= <- <-] [= <- <-]; simpl.
  assert (Hmono : scan_end isLetter (input l) (pos l) <=
                  scan_end isLetterOrDigit (input l) (pos l)).
  { apply scan_end_mono. intros c Hc. unfold isLetterOrDigit. rewrite Hc.
    reflexivity. }
  split; [assumption|].
  apply slice_from_previous_Some in E1, E2.
  destruct E1 as [_ [_ [_ ->]]]. destruct E2 as [_ [_ [_ ->]]].
  apply substring_prefix_mono. lia.
Qed.

Lemma readLiteral_extends_readIdentifier_witness :
  3 <= 5 /\ String.prefix "ab" "ab12" = true.
Proof.
  apply (readLiteral_extends_readIdentifier
           {| input := " ab12 "; pos := 2 |}
           {| input := " ab12 "; pos := 3 |}
           {| input := " ab12 "; pos := 5 |} "ab" "ab12");
    reflexivity.
Defined.

(** ** Byte classes *)

Lemma byte_classes (c : ascii) :
  (isWhitespace c = true ->
   isOperator c = false /\ isLetter c = false /\ isDigit c = false) /\
  (isOperator c = true -> isLetter c = false /\ isDigit c = false) /\
  (isLetter c = true -> isDigit c = false).
Proof.
  destruct c as [[] [] [] [] [] [] [] []]; vm_compute;
    repeat split; intros; congruence.
Qed.

(** X7.  White space, operator bytes, letters and digits are pairwise disjoint
    classes of bytes. *)
Theorem byte_classes_disjoint (c : ascii) :
  (isWhitespace c = true ->
   isOperator c = false /\ isLetter c = false /\ isDigit c = false) /\
  (isOperator c = true -> isLetter c = false /\ isDigit c = false) /\
  (isLetter c = true -> isDigit c = false).
Proof.
  destruct c as [[] [] [] [] [] [] [] []]; vm_compute;
    (split; [|split]); intros H; try discriminate H;
    repeat split; reflexivity.
Qed.

Lemma byte_classes_disjoint_witness :
  isOperator "," = true /\ isLetter "," = false /\ isDigit "," = false.
Proof.
  split; [reflexivity|].
  apply (proj1 (proj2 (byte_classes_disjoint ","))). reflexivity.
Defined.

Lemma isLetter_not_whitespace (c : ascii) :
  isLetter c = true -> isWhitespace c = false.
Proof.
  intros H. destruct (isWhitespace c) eqn:E; [|reflexivity].
  apply byte_classes in E. destruct E as [_ [E _]]. congruence.
Qed.

Lemma isLetter_not_operator (c : ascii) :
  isLetter c = true -> isOperator c = false.
Proof.
  intros H. destruct (isOperator c) eqn:E; [|reflexivity].
  apply byte_classes in E. destruct E as [E _]. congruence.
Qed.

Lemma isOperator_false (c : ascii) :
  isOperator c = false ->
  (c =? "(")%char = false /\ (c =? ")")%char = false /\
  (c =? ",")%char = false /\ (c =? "=")%char = false /\
  (c =? "!")%char = false /\ (c =? "<")%char = false /\
  (c =? ">")%char = false.
Proof.
  unfold isOperator. intros H.
  repeat (apply orb_false_iff in H; destruct H as [H ?]).
  repeat split; assumption.
Qed.

(** ** [NextToken] *)

(** [NextToken] with the white space skipped and the loop of [readKeyword]
    run. *)
Lemma NextToken_scan (l : Lexer) :
  NextToken l =
  let s := input l in
  let i := scan_end isWhitespace s (pos l) in
  match String.get i s with
  | None => (EOF, mkLexer s i, [])
  | Some ch =>
      let l1 := mkLexer s (S i) in
      if (ch =? "(")%char then (LPAREN, l1, [])
      else if (ch =? ")")%char then (RPAREN, l1, [])
      else if (ch =? "=")%char then
        if (peek l1 =? "~")%char then (REG_MATCH, advance l1, [])
        else (EQUALS, l1, [])
      else if (ch =? "!")%char then
        if (peek l1 =? "=")%char then (NOT_EQUALS, advance l1, [])
        else (NOT, l1, [])
      else if (ch =? ",")%char then (WHITESPACE, l1, [])
      else if (ch =? "<")%char then
        if (peek l1 =? "=")%char then (LTE, advance l1, [])
        else (LT, l1, [])
      else if (ch =? ">")%char then
        if (peek l1 =? "=")%char then (GTE, advance l1, [])
        else (GT, l1, [])
      else if isLetter ch then
        let j := scan_end isLetter s (S i) in
        let word := String.substring i (j - i) s in
        match lookup keywords word with
        | Some tok => (tok, mkLexer s j, [])
        | None => (ILLEGAL, mkLexer s j, [word])
        end
      else (ILLEGAL, l1, [])
  end.
Proof.
  unfold NextToken, readKeyword. rewrite skipWhitespace_scan. simpl.
  destruct (String.get _ (input l)); [|reflexivity].
  rewrite readKeyword_loop_scan. simpl. rewrite Nat.sub_0_r. reflexivity.
Qed.

(** X8.  With the cursor on a byte that is neither white space nor a letter,
    the token is [ILLEGAL] exactly when the byte is not an operator byte
    ([isOperator]); the lexer then moves by one byte and prints nothing. *)
Theorem NextToken_other_byte (c : ascii) (l : Lexer) :
  String.get (pos l) (input l) = Some c ->
  isWhitespace c = false -> isLetter c = false ->
  (isOperator c = false ->
   NextToken l = (ILLEGAL, {| input := input l; pos := pos l + 1 |}, [])) /\
  (isOperator c = true ->
   fst (fst (NextToken l)) <> ILLEGAL /\ fst (fst (NextToken l)) <> EOF /\
   snd (NextToken l) = []).
Proof.
  intros Hg Hws Hlet. unfold NextToken.
  rewrite (skipWhitespace_id l c Hg Hws), Hg, Hlet.
  replace (pos l + 1) with (S (pos l)) by lia.
  split.
  - intros Hop. apply isOperator_false in Hop.
    destruct Hop as [-> [-> [-> [-> [-> [-> ->]]]]]]. reflexivity.
  - intros Hop. unfold isOperator in Hop.
    repeat match goal with
           | |- context [if (peek ?x =? ?k)%char then _ else _] =>
               destruct (peek x =? k)%char
           | |- context [if (c =? ?k)%char then _ else _] =>
               destruct (c =? k)%char
           end; simpl in *; try discriminate Hop;
      (split; [|split]); congruence.
Qed.

Lemma NextToken_other_byte_witness :
  NextToken (NewLexer "{x}") = (ILLEGAL, {| input := "{x}"; pos := 1 |}, []) /\
  fst (fst (NextToken (NewLexer ">x"))) <> ILLEGAL.
Proof.
  split.
  - apply (proj1 (NextToken_other_byte "{" (NewLexer "{x}")
                    eq_refl eq_refl eq_refl)). reflexivity.
  - apply (proj2 (NextToken_other_byte ">" (NewLexer ">x")
                    eq_refl eq_refl eq_refl)). reflexivity.
Defined.

(** *** Words *)

(** The entries of the keyword table made of letters. *)
Definition word_keywords : list (string * Token) :=
  [ ("AND", AND); ("OR", OR); ("NOT", NOT); ("EXISTS", EXISTS); ("IN", IN) ].

Lemma lookup_keywords_letters (w : string) (t : Token) :
  lookup keywords w = Some t -> string_forall isLetter w = true ->
  In (w, t) word_keywords.
Proof.
  unfold keywords, word_keywords; cbn [lookup].
  repeat match goal with
         | |- context [String.eqb ?k w] =>
             destruct (String.eqb_spec k w) as [<-|_]
         end;
    try discriminate;
    try (intros [= <-] _; simpl; tauto);
    intros _ H; vm_compute in H; discriminate.
Qed.

Lemma lookup_word_keywords (w : string) (t : Token) :
  In (w, t) word_keywords -> lookup keywords w = Some t.
Proof.
  unfold word_keywords; simpl. intros H.
  repeat (destruct H as [[= <- <-]|H]; [reflexivity|]). contradiction.
Qed.

Lemma get_lt_Some (s : string) (i : nat) :
  i < String.length s -> exists c, String.get i s = Some c.
Proof.
  intros H. destruct (String.get i s) as [c|] eqn:E; [eauto|].
  apply get_None_length in E. lia.
Qed.

(** A scan that starts inside a run of bytes of the class, followed by a
    byte outside it, stops at the end of the run. *)
Lemma scan_end_run (p : ascii -> bool) (w rest : string) (i : nat) :
  string_forall p w = true ->
  (forall c, String.get 0 rest = Some c -> p c = false) ->
  i <= String.length w ->
  scan_end p (String.append w rest) i = String.length w.
Proof.
  intros Hall Hrest Hi. rewrite scan_end_app_l by assumption.
  apply scan_end_unique; [assumption | |].
  - intros j Hj. destruct (get_lt_Some w j) as [c Hc]; [lia|].
    exists c. split; [assumption|]. eapply string_forall_get; eassumption.
  - intros c Hc. apply get_Some_lt in Hc. lia.
Qed.

(** The word that [readKeyword] cuts out when the byte before the cursor
    is a letter. *)
Lemma scanned_word_letters (s : string) (i : nat) (ch : ascii) :
  String.get i s = Some ch -> isLetter ch = true ->
  let j := scan_end isLetter s (S i) in
  i < j <= String.length s /\
  String.length (String.substring i (j - i) s) = j - i /\
  string_forall isLetter (String.substring i (j - i) s) = true.
Proof.
  intros Hg Hl j.
  pose proof (get_Some_lt _ _ _ Hg) as Hlt.
  pose proof (scan_end_ge isLetter s (S i)) as Hge.
  pose proof (scan_end_le isLetter s (S i) Hlt) as Hle.
  fold j in Hge, Hle.
  split; [lia|]. split; [apply substring_length; lia|].
  apply string_forall_iff. intros k c Hk.
  destruct (Nat.lt_ge_cases k (j - i)) as [Hkl|Hkg].
  - rewrite substring_correct1 in Hk by assumption.
    destruct k as [|k].
    + simpl in Hk. congruence.
    + destruct (scan_end_passed isLetter s (S i) (S k + i)) as [c' [Hc' Hp]];
        [fold j; lia|]. congruence.
  - rewrite substring_correct2 in Hk by assumption. discriminate.
Qed.

Lemma NextToken_word_facts (pre w rest : string) :
  w <> EmptyString ->
  string_forall isLetter w = true ->
  (forall c, String.get 0 rest = Some c -> isLetter c = false) ->
  let s := String.append pre (String.append w rest) in
  NextToken {| input := s; pos := String.length pre |} =
  match lookup keywords w with
  | Some t => (t, {| input := s; pos := String.length pre + String.length w |}, [])
  | None => (ILLEGAL, {| input := s; pos := String.length pre + String.length w |}, [w])
  end.
Proof.
  intros Hne Hall Hrest s.
  assert (Hj : scan_end isLetter s (S (String.length pre)) =
               String.length pre + String.length w).
  { replace (S (String.length pre)) with (String.length pre + 1) by lia.
    unfold s. rewrite scan_end_app_r.
    rewrite (scan_end_run isLetter w rest 1 Hall Hrest); [reflexivity|].
    destruct w; [congruence | simpl; lia]. }
  assert (Hw : String.substring (String.length pre) (String.length w) s = w).
  { unfold s. rewrite <- (Nat.add_0_r (String.length pre)) at 1.
    rewrite substring_app_r. apply substring_prefix. }
  destruct w as [|c w']; [congruence|].
  pose proof Hall as Hc. simpl in Hc. apply andb_true_iff in Hc.
  destruct Hc as [Hc _].
  assert (Hg : String.get (String.length pre) s = Some c).
  { pose proof (get_app_r pre (String.append (String c w') rest) 0) as H.
    rewrite Nat.add_0_r in H. exact H. }
  rewrite NextToken_scan. cbv zeta. cbn [input pos].
  rewrite (scan_end_Some _ _ _ _ Hg), (isLetter_not_whitespace c Hc), Hg.
  destruct (isOperator_false c (isLetter_not_operator c Hc))
    as [-> [-> [-> [-> [-> [-> ->]]]]]].
  rewrite Hc, Hj.
  replace (String.length pre + String.length (String c w') - String.length pre)
    with (String.length (String c w')) by lia.
  rewrite Hw. reflexivity.
Qed.

(** X9.  With the cursor on the first byte of a run of letters [w] that a letter
    does not continue, [NextToken] looks the whole of [w] up in the keyword
    table: a keyword gives its token, any other word gives [ILLEGAL] and is
    printed; the cursor is left after the run. *)
Theorem NextToken_word (pre w rest : string) :
  w <> EmptyString ->
  string_forall isLetter w = true ->
  (forall c, String.get 0 rest = Some c -> isLetter c = false) ->
  let s := String.append pre (String.append w rest) in
  NextToken {| input := s; pos := String.length pre |} =
  match lookup keywords w with
  | Some t => (t, {| input := s; pos := String.length pre + String.length w |}, [])
  | None => (ILLEGAL, {| input := s; pos := String.length pre + String.length w |}, [w])
  end.
Proof. apply NextToken_word_facts. Qed.

Lemma NextToken_word_witness :
  NextToken {| input := "(EXISTS,x)"; pos := 1 |} =
    (EXISTS, {| input := "(EXISTS,x)"; pos := 7 |}, []) /\
  NextToken {| input := "(exists,x)"; pos := 1 |} =
    (ILLEGAL, {| input := "(exists,x)"; pos := 7 |}, ["exists"]).
Proof.
  split.
  - apply (NextToken_word "(" "EXISTS" ",x)");
      [discriminate | reflexivity | intros c [= <-]; reflexivity].
  - apply (NextToken_word "(" "exists" ",x)");
      [discriminate | reflexivity | intros c [= <-]; reflexivity].
Defined.



Lemma NextToken_prints_unknown_words_facts
  (l l' : Lexer) (t : Token) (o : list string) :
  NextToken l = (t, l', o) ->
  o = [] \/
  (t = ILLEGAL /\
   exists w, o = [w] /\ w <> EmptyString /\
             string_forall isLetter w = true /\ lookup keywords w = None).
Proof.
  rewrite NextToken_scan. cbv zeta.
  set (i := scan_end isWhitespace (input l) (pos l)).
  destruct (String.get i (input l)) as [ch|] eqn:Hg;
    [|intros [= <- <- <-]; left; reflexivity].
  repeat match goal with
         | |- context [if (peek ?x =? ?k)%char then _ else _] =>
             destruct (peek x =? k)%char
         | |- context [if (ch =? ?k)%char then _ else _] =>
             destruct (ch =? k)%char
         end;
    try (intros [= <- <- <-]; left; reflexivity).
  all: destruct (isLetter ch) eqn:Hl; [|intros [= <- <- <-]; left; reflexivity].
  all: destruct (scanned_word_letters (input l) i ch Hg Hl) as [Hj [Hlen Hall]].
  all: destruct (lookup keywords _) as [t0|] eqn:E; intros [= <- <- <-];
    [left; reflexivity|].
  all: right; split; [reflexivity|]; eexists; split; [reflexivity|].
  all: split; [|split; assumption].
  all: intros Hw; rewrite Hw in Hlen; simpl in Hlen; lia.
Qed.

(** X11.  [NextToken] writes to standard output only when it returns [ILLEGAL]
    for a word: the line is a non-empty run of letters that is not a
    keyword. *)
Theorem NextToken_prints_unknown_words
  (l l' : Lexer) (t : Token) (o : list string) :
  NextToken l = (t, l', o) ->
  o = [] \/
  (t = ILLEGAL /\
   exists w, o = [w] /\ w <> EmptyString /\
             string_forall isLetter w = true /\ lookup keywords w = None).
Proof. apply NextToken_prints_unknown_words_facts. Qed.

Lemma NextToken_prints_unknown_words_witness :
  ["foo"] = [] \/
  (ILLEGAL = ILLEGAL /\
   exists w, ["foo"] = [w] /\ w <> EmptyString /\
             string_forall isLetter w = true /\ lookup keywords w = None).
Proof.
  apply (NextToken_prints_unknown_words (NewLexer " foo=1")
           {| input := " foo=1"; pos := 4 |} ILLEGAL ["foo"]).
  reflexivity.
Defined.

(** *** End of input *)

Lemma lookup_keywords_not_EOF (w : string) : lookup keywords w <> Some EOF.
Proof.
  unfold keywords; cbn [lookup].
  repeat match goal with
         | |- context [String.eqb ?k w] => destruct (String.eqb k w)
         end; discriminate.
Qed.

Lemma NextToken_EOF_get (l : Lexer) :
  let i := scan_end isWhitespace (input l) (pos l) in
  (String.get i (input l) = None ->
   NextToken l = (EOF, {| input := input l; pos := i |}, [])) /\
  (String.get i (input l) <> None -> fst (fst (NextToken l)) <> EOF).
Proof.
  intros i. rewrite NextToken_scan. cbv zeta. fold i.
  destruct (String.get i (input l)) as [ch|] eqn:Hg.
  - split; [discriminate|]. intros _.
    repeat match goal with
           | |- context [if (peek ?x =? ?k)%char then _ else _] =>
               destruct (peek x =? k)%char
           | |- context [if (ch =? ?k)%char then _ else _] =>
               destruct (ch =? k)%char
           end; try (simpl; discriminate).
    all: destruct (isLetter ch); [|simpl; discriminate].
    all: destruct (lookup keywords _) as [t0|] eqn:E; simpl; [|discriminate].
    all: intros ->; exact (lookup_keywords_not_EOF _ E).
  - split; [reflexivity | congruence].
Qed.

Lemma NextToken_EOF_facts (l : Lexer) :
  (fst (fst (NextToken l)) = EOF <->
   forall j c, pos l <= j -> String.get j (input l) = Some c ->
               isWhitespace c = true) /\
  (forall l' o, NextToken l = (EOF, l', o) ->
                o = [] /\ NextToken l' = (EOF, l', [])).
Proof.
  pose proof (NextToken_EOF_get l) as [Hnone Hsome]. cbv zeta in *.
  set (i := scan_end isWhitespace (input l) (pos l)) in *.
  split; [split|].
  - intros Heof j c Hj Hg.
    destruct (String.get i (input l)) as [ch|] eqn:Hi;
      [exfalso; apply Hsome; [discriminate | assumption]|].
    apply get_None_length in Hi. pose proof (get_Some_lt _ _ _ Hg).
    destruct (scan_end_passed isWhitespace (input l) (pos l) j) as [c' [Hc' Hp]];
      [fold i; lia | congruence].
  - intros Hall.
    destruct (String.get i (input l)) as [ch|] eqn:Hi.
    + pose proof (scan_end_stop _ _ _ _ Hi) as Hstop.
      rewrite (Hall i ch (scan_end_ge _ _ _) Hi) in Hstop. discriminate.
    + rewrite (Hnone eq_refl). reflexivity.
  - intros l' o Hnext.
    destruct (String.get i (input l)) as [ch|] eqn:Hi.
    + exfalso. apply Hsome; [discriminate | rewrite Hnext; reflexivity].
    + rewrite (Hnone eq_refl) in Hnext. injection Hnext as <- <-.
      split; [reflexivity|].
      pose proof (NextToken_EOF_get {| input := input l; pos := i |}) as [H _].
      cbv zeta in H. simpl in H. unfold i in H.
      rewrite scan_end_idem in H. fold i in H. apply H. assumption.
Qed.

(** X12.  [NextToken] returns [EOF] exactly when every byte from the cursor on is
    white space (in particular when the cursor is at the end).  It then
    prints nothing and leaves the lexer in a state from which every further
    call returns [EOF] again without moving. *)
Theorem NextToken_EOF (l : Lexer) :
  (fst (fst (NextToken l)) = EOF <->
   forall j c, pos l <= j -> String.get j (input l) = Some c ->
               isWhitespace c = true) /\
  (forall l' o, NextToken l = (EOF, l', o) ->
                o = [] /\ NextToken l' = (EOF, l', [])).
Proof. exact (NextToken_EOF_facts l). Qed.

Lemma NextToken_EOF_witness :
  fst (fst (NextToken {| input := "a  "; pos := 1 |})) = EOF /\
  NextToken {| input := "a  "; pos := 3 |} =
    (EOF, {| input := "a  "; pos := 3 |}, []).
Proof.
  split.
  - apply (proj1 (NextToken_EOF {| input := "a  "; pos := 1 |})).
    intros [|[|[|j]]] c Hj; simpl in *; intros [= <-]; try reflexivity. lia.
  - apply (proj2 (NextToken_EOF {| input := "a  "; pos := 1 |})
             {| input := "a  "; pos := 3 |} []).
    reflexivity.
Defined.

(** *** The cursor *)

(** X13.  A call of [NextToken] keeps the input and never moves the cursor back;
    a cursor inside the input stays inside; and a call that returns a token
    other than [EOF] has consumed at least one byte. *)
Theorem NextToken_cursor (l l' : Lexer) (t : Token) (o : list string) :
  NextToken l = (t, l', o) ->
  input l' = input l /\
  pos l <= pos l' /\
  (pos l <= String.length (input l) -> pos l' <= String.length (input l)) /\
  (t <> EOF -> pos l < pos l' <= String.length (input l)).
Proof.
  intros Hnext. pose proof (NextToken_progress _ _ _ _ Hnext) as [Hin Hp].
  split; [assumption|].
  destruct (Token_eq_dec t EOF) as [->|Hne].
  - pose proof (NextToken_EOF_get l) as [Hnone Hsome]. cbv zeta in *.
    destruct (String.get (scan_end isWhitespace (input l) (pos l)) (input l))
      eqn:Hg.
    + exfalso. apply Hsome; [discriminate | rewrite Hnext; reflexivity].
    + rewrite (Hnone eq_refl) in Hnext. injection Hnext as <-. simpl.
      split; [apply scan_end_ge|]. split; [apply scan_end_le | congruence].
  - specialize (Hp Hne). split; [lia|]. split; intros _; lia.
Qed.

Lemma NextToken_cursor_witness :
  input {| input := "a >= b"; pos := 4 |} = "a >= b" /\
  1 <= 4 /\
  (1 <= String.length "a >= b" -> 4 <= String.length "a >= b") /\
  (GTE <> EOF -> 1 < 4 <= String.length "a >= b").
Proof.
  apply (NextToken_cursor {| input := "a >= b"; pos := 1 |}
           {| input := "a >= b"; pos := 4 |} GTE []).
  reflexivity.
Defined.

(** ** What lies before the cursor does not matter *)

(** The lexer [l] with [pre] put in front of its input. *)
Definition shift_lexer (pre : string) (l : Lexer) : Lexer :=
  {| input := String.append pre (input l); pos := String.length pre + pos l |}.

Lemma NextToken_shift (pre : string) (l : Lexer) :
  NextToken (shift_lexer pre l) =
  let '(t, l', o) := NextToken l in (t, shift_lexer pre l', o).
Proof.
  rewrite !NextToken_scan. cbv zeta. unfold shift_lexer. cbn [input pos].
  rewrite scan_end_app_r, get_app_r.
  set (s := input l). set (i := scan_end isWhitespace s (pos l)).
  destruct (String.get i s) as [ch|]; [|reflexivity].
  replace (S (String.length pre + i)) with (String.length pre + S i) by lia.
  unfold peek, advance. cbn [input pos].
  replace (S (String.length pre + S i)) with (String.length pre + S (S i)) by lia.
  rewrite !get_app_r, scan_end_app_r.
  replace (String.length pre + scan_end isLetter s (S i) - (String.length pre + i))
    with (scan_end isLetter s (S i) - i) by lia.
  rewrite substring_app_r.
  repeat match goal with
         | |- context [if ?b then _ else _] => destruct b
         end; try reflexivity.
  destruct (lookup keywords _); reflexivity.
Qed.

Lemma tokens_loop_shift (pre : string) (l : Lexer) :
  forall tokens out,
    tokens_loop (shift_lexer pre l) tokens out = tokens_loop l tokens out.
Proof.
  induction l as [l IH] using token_loop_ind. intros tokens out.
  rewrite (tokens_loop_eq (shift_lexer pre l)), (tokens_loop_eq l).
  rewrite NextToken_shift.
  destruct (NextToken l) as [[t l'] o] eqn:Hnext.
  destruct (Token_eq_dec t EOF) as [Heof|Hne]; [reflexivity|].
  apply (IH t l' o eq_refl Hne).
Qed.

(** X14.  The lexer never looks back: with any text put in front of the input
    and the cursor moved accordingly, [NextToken] returns the same token,
    prints the same lines and moves the cursor by the same distance, and the
    token loop builds the same slice and output. *)
Theorem lexer_ignores_consumed_input (pre : string) (l : Lexer) :
  NextToken (shift_lexer pre l) =
    (let '(t, l', o) := NextToken l in (t, shift_lexer pre l', o)) /\
  forall tokens out,
    tokens_loop (shift_lexer pre l) tokens out = tokens_loop l tokens out.
Proof. split; [apply NextToken_shift | apply tokens_loop_shift]. Qed.

(** The token loop started on [l] with a slice and an output continues
    them with what it produces from empty ones. *)
Lemma tokens_loop_acc (l : Lexer) :
  forall tokens out,
    tokens_loop l tokens out =
    (tokens ++ fst (tokens_loop l [] []), out ++ snd (tokens_loop l [] [])).
Proof.
  induction l as [l IH] using token_loop_ind. intros tokens out.
  rewrite (tokens_loop_eq l tokens out), (tokens_loop_eq l [] []).
  destruct (NextToken l) as [[tok l'] o] eqn:Hnext.
  destruct (Token_eq_dec tok EOF) as [Heof|Hne].
  - simpl. rewrite app_nil_r. reflexivity.
  - rewrite (IH tok l' o eq_refl Hne (tokens ++ [tok]) (out ++ o)).
    rewrite (IH tok l' o eq_refl Hne ([] ++ [tok]) ([] ++ o)).
    simpl. rewrite <- !app_assoc. reflexivity.
Qed.

(** [NextToken] sees the cursor only through [skipWhitespace]. *)
Lemma NextToken_skip (l : Lexer) (n : nat) :
  scan_end isWhitespace (input l) (pos l) = scan_end isWhitespace (input l) n ->
  NextToken l = NextToken {| input := input l; pos := n |}.
Proof.
  intros H. rewrite (NextToken_scan l), (NextToken_scan (mkLexer _ _)).
  cbv zeta. cbn [input pos]. rewrite H. reflexivity.
Qed.

(** X15.  Skipping white space before a call of [NextToken] changes nothing:
    the call skips it itself. *)
Theorem NextToken_after_skipWhitespace (l : Lexer) :
  NextToken (skipWhitespace l) = NextToken l.
Proof.
  rewrite skipWhitespace_scan. symmetry. apply NextToken_skip.
  rewrite scan_end_idem. reflexivity.
Qed.

(** A scan passes at once over bytes known to be in the class. *)
Lemma scan_end_jump (p : ascii -> bool) (s : string) (i n : nat) :
  i <= n ->
  (forall j, i <= j < n -> exists c, String.get j s = Some c /\ p c = true) ->
  scan_end p s i = scan_end p s n.
Proof.
  intros Hin Hpass. apply scan_end_unique.
  - pose proof (scan_end_ge p s n). lia.
  - intros j Hj. destruct (Nat.lt_ge_cases j n) as [Hlt|Hge].
    + apply Hpass. lia.
    + apply (scan_end_passed p s n j). lia.
  - apply scan_end_stop.
Qed.

Lemma scan_end_app_inside (p : ascii -> bool) (a b : string) (i : nat) :
  scan_end p a i < String.length a ->
  scan_end p (String.append a b) i = scan_end p a i.
Proof.
  intros H. apply scan_end_unique.
  - apply scan_end_ge.
  - intros j Hj. destruct (scan_end_passed p a i j Hj) as [c [Hg Hp]].
    exists c. split; [|assumption]. rewrite get_app_l; [assumption | lia].
  - intros c Hg. rewrite get_app_l in Hg by assumption.
    eapply scan_end_stop; eassumption.
Qed.

(** ** White space separates tokens *)

(** The lexer [l] with [b] put after its input. *)
Definition extend_lexer (b : string) (l : Lexer) : Lexer :=
  {| input := String.append (input l) b; pos := pos l |}.

Definition starts_with_whitespace (b : string) : bool :=
  match b with
  | EmptyString => false
  | String c _ => isWhitespace c
  end.

Lemma starts_with_whitespace_get (b : string) :
  starts_with_whitespace b = true ->
  exists c, String.get 0 b = Some c /\ isWhitespace c = true.
Proof. destruct b as [|c b]; simpl; [discriminate | eauto]. Qed.

Lemma peek_extend (s b : string) (n : nat) (k : ascii) :
  n <= String.length s -> starts_with_whitespace b = true ->
  isWhitespace k = false -> k <> zero ->
  (peek {| input := String.append s b; pos := n |} =? k)%char =
  (peek {| input := s; pos := n |} =? k)%char.
Proof.
  intros Hn Hb Hk Hz. unfold peek; cbn [input pos].
  destruct (Nat.eq_dec n (String.length s)) as [->|Hne].
  - pose proof (get_app_r s b 0) as H. rewrite Nat.add_0_r in H. rewrite H.
    destruct (starts_with_whitespace_get b Hb) as [c [-> Hc]].
    rewrite (proj2 (get_None_length s (String.length s))) by lia.
    transitivity false; [|symmetry]; apply Ascii.eqb_neq; congruence.
  - rewrite get_app_l by lia. reflexivity.
Qed.

(** A token read inside [a] is read in the same way when white space and
    more input follow [a]. *)
Lemma NextToken_extend (b : string) (l l' : Lexer) (t : Token) (o : list string) :
  starts_with_whitespace b = true ->
  NextToken l = (t, l', o) -> t <> EOF ->
  NextToken (extend_lexer b l) = (t, extend_lexer b l', o).
Proof.
  intros Hb Hnext Hne.
  revert Hnext. rewrite !NextToken_scan. cbv zeta.
  unfold extend_lexer. cbn [input pos].
  set (s := input l) in *. set (i := scan_end isWhitespace s (pos l)) in *.
  destruct (String.get i s) as [ch|] eqn:Hg.
  2:{ intros [= <- _ _]. congruence. }
  pose proof (get_Some_lt _ _ _ Hg) as Hlt.
  rewrite (scan_end_app_inside isWhitespace s b (pos l)) by assumption.
  fold i. rewrite (get_app_l s b i Hlt), Hg.
  rewrite !(peek_extend s b (S i)) by (assumption || reflexivity || discriminate).
  destruct (starts_with_whitespace_get b Hb) as [c [Hc Hws]].
  rewrite (scan_end_app_l isLetter s b (S i)); [|assumption|].
  2:{ intros c' Hc'. rewrite Hc in Hc'. injection Hc' as <-.
      apply byte_classes in Hws. tauto. }
  pose proof (scan_end_le isLetter s (S i) Hlt) as Hle.
  pose proof (scan_end_ge isLetter s (S i)) as Hge.
  rewrite (substring_app_l s b i) by lia.
  repeat match goal with
         | |- context [if ?c then _ else _] => destruct c
         end;
    try (intros [= <- <- <-]; reflexivity).
  destruct (lookup keywords _); intros [= <- <- <-]; reflexivity.
Qed.

(** When only white space is left in [a], the lexer goes on into what
    follows [a]. *)
Lemma NextToken_extend_EOF (b : string) (l l' : Lexer) (o : list string) :
  pos l <= String.length (input l) ->
  NextToken l = (EOF, l', o) ->
  NextToken (extend_lexer b l) =
  NextToken {| input := String.append (input l) b;
               pos := String.length (input l) |}.
Proof.
  intros Hpos Hnext.
  pose proof (proj1 (NextToken_EOF_facts l)) as [Hall _].
  assert (Heof : fst (fst (NextToken l)) = EOF) by (rewrite Hnext; reflexivity).
  specialize (Hall Heof).
  apply (NextToken_skip (extend_lexer b l)). unfold extend_lexer; cbn [input pos].
  apply scan_end_jump; [assumption|].
  intros j Hj. destruct (get_lt_Some (input l) j) as [c Hc]; [lia|].
  exists c. split; [rewrite get_app_l by lia; assumption|].
  apply (Hall j c); [lia | assumption].
Qed.

Lemma tokens_loop_extend (b : string) (l : Lexer) :
  starts_with_whitespace b = true ->
  pos l <= String.length (input l) ->
  forall tokens out,
    tokens_loop (extend_lexer b l) tokens out =
    let '(tokens', out') := tokens_loop l tokens out in
    tokens_loop {| input := String.append (input l) b;
                   pos := String.length (input l) |} tokens' out'.
Proof.
  intros Hb. induction l as [l IH] using token_loop_ind. intros Hpos tokens out.
  rewrite (tokens_loop_eq (extend_lexer b l)), (tokens_loop_eq l).
  destruct (NextToken l) as [[t l'] o] eqn:Hnext.
  destruct (Token_eq_dec t EOF) as [->|Hne].
  - rewrite (NextToken_extend_EOF b l l' o Hpos Hnext).
    destruct (proj2 (NextToken_EOF_facts l) l' o Hnext) as [-> _].
    rewrite app_nil_r. rewrite (tokens_loop_eq (mkLexer _ _)). reflexivity.
  - rewrite (NextToken_extend b l l' t o Hb Hnext Hne).
    destruct (Token_eq_dec t EOF) as [|_]; [contradiction|].
    pose proof (NextToken_progress _ _ _ _ Hnext) as [Hin Hp].
    specialize (Hp Hne).
    rewrite (IH t l' o eq_refl Hne) by (rewrite Hin; lia).
    rewrite Hin. reflexivity.
Qed.

Lemma tokens_loop_leading_whitespace (ws s : string) :
  string_forall isWhitespace ws = true ->
  forall tokens out,
    tokens_loop (NewLexer (String.append ws s)) tokens out =
    tokens_loop (NewLexer s) tokens out.
Proof.
  intros Hws tokens out.
  assert (Hnext : NextToken (NewLexer (String.append ws s)) =
                  NextToken (shift_lexer ws (NewLexer s))).
  { unfold shift_lexer, NewLexer; cbn [input pos]. rewrite Nat.add_0_r.
    apply (NextToken_skip {| input := String.append ws s; pos := 0 |}).
    cbn [input pos]. apply scan_end_jump; [lia|].
    intros j Hj. destruct (get_lt_Some ws j) as [c Hc]; [lia|].
    exists c. split; [rewrite get_app_l by lia; assumption|].
    eapply string_forall_get; eassumption. }
  rewrite (tokens_loop_eq (NewLexer (String.append ws s))), Hnext.
  rewrite NextToken_shift, (tokens_loop_eq (NewLexer s)).
  destruct (NextToken (NewLexer s)) as [[t l'] o].
  destruct (Token_eq_dec t EOF); [reflexivity | apply tokens_loop_shift].
Qed.

Lemma tokens_loop_whitespace_only (ws : string) :
  string_forall isWhitespace ws = true ->
  forall tokens out, tokens_loop (NewLexer ws) tokens out = (tokens, out).
Proof.
  intros Hws tokens out.
  pose proof (skipWhitespace_all (NewLexer ws) Hws) as Hg.
  rewrite skipWhitespace_scan in Hg.
  pose proof (NextToken_EOF_get (NewLexer ws)) as [Hnone _].
  cbv zeta in Hnone.
  rewrite tokens_loop_eq, (Hnone Hg).
  simpl. rewrite app_nil_r. reflexivity.
Qed.

Lemma tokens_loop_concat (a b : string) :
  starts_with_whitespace b = true ->
  tokens_loop (NewLexer (String.append a b)) [] [] =
  (fst (tokens_loop (NewLexer a) [] []) ++ fst (tokens_loop (NewLexer b) [] []),
   snd (tokens_loop (NewLexer a) [] []) ++ snd (tokens_loop (NewLexer b) [] [])).
Proof.
  intros Hb.
  change (NewLexer (String.append a b)) with (extend_lexer b (NewLexer a)).
  rewrite (tokens_loop_extend b (NewLexer a) Hb) by (simpl; lia).
  destruct (tokens_loop (NewLexer a) [] []) as [ta oa].
  cbn [input pos NewLexer fst snd].
  replace {| input := String.append a b; pos := String.length a |}
    with (shift_lexer a (NewLexer b))
    by (unfold shift_lexer, NewLexer; cbn [input pos];
        rewrite Nat.add_0_r; reflexivity).
  rewrite tokens_loop_shift. apply tokens_loop_acc.
Qed.

Lemma ParseCondition_run_stdout (input : string) :
  snd (ParseCondition_run input) = snd (tokens_loop (NewLexer input) [] []).
Proof.
  unfold ParseCondition_run.
  destruct (tokens_loop (NewLexer input) [] []); reflexivity.
Qed.

Lemma string_forall_app (p : ascii -> bool) (a b : string) :
  string_forall p (String.append a b) = string_forall p a && string_forall p b.
Proof.
  induction a as [|c a IH]; simpl; [reflexivity|].
  rewrite IH, andb_assoc. reflexivity.
Qed.

(** X16.  White space separates tokens: when [a] and [b] are put together with
    at least one byte of white space between them, the token stream is the
    stream of [a] followed by the stream of [b], and so are the lines
    printed. *)
Theorem whitespace_separates_tokens (a ws b : string) :
  ws <> EmptyString ->
  string_forall isWhitespace ws = true ->
  tokenize (String.append a (String.append ws b)) = tokenize a ++ tokenize b /\
  snd (ParseCondition_run (String.append a (String.append ws b))) =
    snd (ParseCondition_run a) ++ snd (ParseCondition_run b).
Proof.
  intros Hne Hws. unfold tokenize. rewrite !ParseCondition_run_stdout.
  assert (Hb : starts_with_whitespace (String.append ws b) = true).
  { destruct ws as [|c ws]; [congruence|]. simpl in *.
    apply andb_true_iff in Hws. tauto. }
  rewrite (tokens_loop_concat a (String.append ws b) Hb).
  rewrite (tokens_loop_leading_whitespace ws b Hws). split; reflexivity.
Qed.

Lemma whitespace_separates_tokens_witness :
  tokenize "NOT (a)" = tokenize "NOT" ++ tokenize "(a)" /\
  snd (ParseCondition_run "NOT (a)") =
    snd (ParseCondition_run "NOT") ++ snd (ParseCondition_run "(a)").
Proof.
  apply (whitespace_separates_tokens "NOT" " " "(a)");
    [discriminate | reflexivity].
Defined.

Lemma tokens_loop_surrounding_whitespace (ws1 s ws2 : string) :
  string_forall isWhitespace ws1 = true ->
  string_forall isWhitespace ws2 = true ->
  tokens_loop (NewLexer (String.append ws1 (String.append s ws2))) [] [] =
  tokens_loop (NewLexer s) [] [].
Proof.
  intros H1 H2. rewrite (tokens_loop_leading_whitespace ws1 _ H1).
  destruct ws2 as [|c ws2].
  - replace (String.append s EmptyString) with s; [reflexivity|].
    clear. induction s as [|c s IH]; simpl; [reflexivity | rewrite <- IH; reflexivity].
  - rewrite tokens_loop_concat
      by (simpl in *; apply andb_true_iff in H2; tauto).
    rewrite (tokens_loop_whitespace_only _ H2). simpl.
    rewrite !app_nil_r. destruct (tokens_loop (NewLexer s) [] []); reflexivity.
Qed.

(** ** The verdict of [ParseCondition] *)

(** The error that the checks return for a token slice: [None] when they
    accept. *)
Definition diagnosis (tokens : list Token) : option string :=
  match check EmptyString tokens with
  | Some (_, err) => err
  | None => None
  end.

Ltac last_token_cases t t1 rest :=
  let tl := fresh "tl" in
  let E := fresh "E" in
  destruct (nth_error (t :: t1 :: rest) (List.length (t :: t1 :: rest) - 1))
    as [tl|] eqn:E;
  [ destruct t;
    cbn [List.length Nat.eqb nth_error Token_eqb Token_eq_dec
         Token_rec Token_rect sumbool_rec sumbool_rect negb];
    try reflexivity;
    destruct t1; cbn; try reflexivity;
    destruct tl; cbn; try reflexivity
  | exfalso; apply nth_error_None in E; simpl in E; lia ].

(** The checks look at the input only to hand it back. *)
Lemma check_diagnosis (input : string) (tokens : list Token) :
  check input tokens =
  match diagnosis tokens with
  | None => accepted input
  | Some msg => rejected msg
  end.
Proof.
  unfold diagnosis, check, accepted, rejected, Errorf.
  destruct tokens as [|t [|t1 rest]].
  - reflexivity.
  - destruct t; reflexivity.
  - last_token_cases t t1 rest.
Qed.

Lemma ParseCondition_diagnosis (input : string) :
  ParseCondition input =
  match diagnosis (tokenize input) with
  | None => accepted input
  | Some msg => rejected msg
  end.
Proof. rewrite ParseCondition_check. apply check_diagnosis. Qed.

(** X17.  [ParseCondition] never panics (no index is out of range): it returns
    the input unchanged with no error, or the empty string with one of the
    seven diagnostics. *)
Theorem ParseCondition_outcomes (input : string) :
  ParseCondition input = accepted input \/
  exists msg, In msg diagnostics /\ ParseCondition input = rejected msg.
Proof. rewrite ParseCondition_check. apply check_result. Qed.

(** The diagnosis depends only on the first, the second and the last token
    of the stream. *)
Lemma diagnosis_three_tokens (tokens1 tokens2 : list Token) :
  first_token tokens1 = first_token tokens2 ->
  second_token tokens1 = second_token tokens2 ->
  last_token tokens1 = last_token tokens2 ->
  diagnosis tokens1 = diagnosis tokens2.
Proof.
  unfold first_token, second_token, last_token, diagnosis, check, Errorf.
  destruct tokens1 as [|a [|a1 r1]], tokens2 as [|b [|b1 r2]];
    cbn [nth_error]; try discriminate; try reflexivity.
  - intros [= <-] _ _. reflexivity.
  - intros [= <-] [= <-].
    destruct (nth_error (a :: a1 :: r1) (List.length (a :: a1 :: r1) - 1))
      as [tl|] eqn:E1;
      [|exfalso; apply nth_error_None in E1; simpl in E1; lia].
    intros <-.
    destruct a;
      cbn [List.length Nat.eqb nth_error Token_eqb Token_eq_dec
           Token_rec Token_rect sumbool_rec sumbool_rect negb];
      try reflexivity;
      destruct a1; cbn; try reflexivity.
Qed.

(** X18.  Two inputs whose token streams have the same first, second and last
    tokens get the same verdict: both are accepted, or both are rejected
    with the same message.  What lies between these tokens is not looked
    at. *)
Theorem verdict_depends_on_three_tokens (input1 input2 : string) :
  first_token (tokenize input1) = first_token (tokenize input2) ->
  second_token (tokenize input1) = second_token (tokenize input2) ->
  last_token (tokenize input1) = last_token (tokenize input2) ->
  (ParseCondition input1 = accepted input1 <->
   ParseCondition input2 = accepted input2) /\
  (forall msg, ParseCondition input1 = rejected msg <->
               ParseCondition input2 = rejected msg).
Proof.
  intros H1 H2 H3.
  rewrite !ParseCondition_diagnosis.
  rewrite (diagnosis_three_tokens _ _ H1 H2 H3).
  unfold accepted, rejected.
  destruct (diagnosis (tokenize input2)) as [m|]; split;
    try (intros msg); split; intros H; try reflexivity; try discriminate;
    injection H as ->; reflexivity.
Qed.

Lemma verdict_depends_on_three_tokens_witness :
  ParseCondition "( ) ) ( = , )" = accepted "( ) ) ( = , )".
Proof.
  apply (proj1 (verdict_depends_on_three_tokens "( ) )" "( ) ) ( = , )"
                  eq_refl eq_refl eq_refl)).
  reflexivity.
Defined.

(** The operators that want a field name, with their diagnostics. *)
Definition operand_diagnostics : list (Token * string) :=
  [ (EXISTS, "EXISTS operator must be followed by a field name");
    (IN, "IN operator must be followed by a field name");
    (REG_MATCH, "=~ operator must be followed by a field name") ].

(** X19.  When the first token is [EXISTS], [IN] or [REG_MATCH] and the second
    token is missing or is not [WHITESPACE] (the token of a comma), the
    call fails with the diagnostic of that operator. *)
Theorem operator_without_comma_rejected
  (input : string) (t : Token) (msg : string) :
  In (t, msg) operand_diagnostics ->
  first_token (tokenize input) = Some t ->
  second_token (tokenize input) <> Some WHITESPACE ->
  ParseCondition input = rejected msg.
Proof.
  intros Hin Hfirst Hsecond. rewrite ParseCondition_check.
  destruct (tokenize input) as [|t0 [|t1 rest]]; [discriminate | |];
    check_cases; simpl in Hin.
  - repeat (destruct Hin as [[= <- <-]|Hin]; [reflexivity|]). contradiction.
  - assert (Ht1 : t1 <> WHITESPACE) by (simpl in Hsecond; congruence).
    repeat (destruct Hin as [[= <- <-]|Hin];
            [destruct t1; try reflexivity; congruence|]).
    contradiction.
Qed.

Lemma operator_without_comma_rejected_witness :
  ParseCondition "IN (a, b)" =
    rejected "IN operator must be followed by a field name" /\
  ParseCondition "=~" =
    rejected "=~ operator must be followed by a field name".
Proof.
  split.
  - apply (operator_without_comma_rejected "IN (a, b)" IN);
      [simpl; tauto | reflexivity | vm_compute; discriminate].
  - apply (operator_without_comma_rejected "=~" REG_MATCH);
      [simpl; tauto | reflexivity | vm_compute; discriminate].
Defined.

Lemma first_ILLEGAL_diagnosis (tokens : list Token) :
  first_token tokens = Some ILLEGAL ->
  diagnosis tokens = Some "Invalid condition".
Proof.
  intros H. unfold diagnosis. destruct tokens as [|t rest]; [discriminate|].
  check_cases. reflexivity.
Qed.

(** X20.  When the first token is [ILLEGAL] the call fails with
    "Invalid condition", whatever follows. *)
Theorem first_token_ILLEGAL_rejected (input : string) :
  first_token (tokenize input) = Some ILLEGAL ->
  ParseCondition input = rejected "Invalid condition".
Proof.
  intros H. rewrite ParseCondition_diagnosis, (first_ILLEGAL_diagnosis _ H).
  reflexivity.
Qed.

Lemma first_token_ILLEGAL_rejected_witness :
  ParseCondition "123abc" = rejected "Invalid condition".
Proof. apply (first_token_ILLEGAL_rejected "123abc"). reflexivity. Defined.

(** *** The token stream *)

(** The first token of the stream is the first answer of the lexer. *)
Lemma tokenize_cons (input : string) (tok : Token) (l' : Lexer) (o : list string) :
  NextToken (NewLexer input) = (tok, l', o) -> tok <> EOF ->
  tokenize input = tok :: fst (tokens_loop l' [] []).
Proof.
  intros Hnext Hne. unfold tokenize.
  rewrite tokens_loop_eq, Hnext.
  destruct (Token_eq_dec tok EOF) as [Heof|_]; [contradiction|].
  rewrite tokens_loop_app. reflexivity.
Qed.

Lemma tokens_loop_no_EOF (l : Lexer) : ~ In EOF (fst (tokens_loop l [] [])).
Proof.
  induction l as [l IH] using token_loop_ind.
  rewrite tokens_loop_eq.
  destruct (NextToken l) as [[tok l'] o] eqn:Hnext.
  destruct (Token_eq_dec tok EOF) as [Heof|Hne]; [simpl; tauto|].
  rewrite tokens_loop_app. simpl. intros [H|H]; [congruence|].
  exact (IH tok l' o eq_refl Hne H).
Qed.

(** X21.  [EOF] marks the end of the loop and is never put in the token slice. *)
Theorem tokenize_no_EOF (input : string) : ~ In EOF (tokenize input).
Proof. apply tokens_loop_no_EOF. Qed.

Lemma tokens_loop_lines (l : Lexer) :
  List.length (snd (tokens_loop l [] [])) <=
  count_occ Token_eq_dec (fst (tokens_loop l [] [])) ILLEGAL.
Proof.
  induction l as [l IH] using token_loop_ind.
  rewrite tokens_loop_eq.
  destruct (NextToken l) as [[tok l'] o] eqn:Hnext.
  pose proof (NextToken_prints_unknown_words_facts l l' tok o Hnext) as Ho.
  destruct (Token_eq_dec tok EOF) as [Heof|Hne].
  - destruct Ho as [->|[-> _]]; [simpl; lia | discriminate].
  - rewrite tokens_loop_acc. cbn [fst snd].
    rewrite length_app, count_occ_app.
    specialize (IH tok l' o eq_refl Hne).
    destruct Ho as [->|[-> [w [-> _]]]]; simpl.
    + destruct (Token_eq_dec tok ILLEGAL); lia.
    + lia.
Qed.

(** X22.  Every line written to standard output goes with an [ILLEGAL] token of
    the stream: the lines are at most as many as these tokens, so an input
    whose stream has no [ILLEGAL] token prints nothing. *)
Theorem printed_lines_are_ILLEGAL_tokens (input : string) :
  List.length (snd (ParseCondition_run input)) <=
  count_occ Token_eq_dec (tokenize input) ILLEGAL.
Proof. rewrite ParseCondition_run_stdout. apply tokens_loop_lines. Qed.

Lemma diagnosis_Empty (tokens : list Token) :
  diagnosis tokens = Some "Empty condition" -> tokens = [].
Proof.
  unfold diagnosis, check, Errorf.
  destruct tokens as [|t [|t1 rest]]; [reflexivity | |].
  - destruct t; simpl; discriminate.
  - destruct (nth_error (t :: t1 :: rest) (List.length (t :: t1 :: rest) - 1))
      as [tl|] eqn:E;
      [|exfalso; apply nth_error_None in E; simpl in E; lia].
    destruct t;
      cbn [List.length Nat.eqb nth_error Token_eqb Token_eq_dec
           Token_rec Token_rect sumbool_rec sumbool_rect negb];
      try discriminate;
      destruct t1; cbn; try discriminate;
      destruct tl; cbn; discriminate.
Qed.

(** X23.  The call fails with "Empty condition" exactly when the input consists
    of white space only (or is empty). *)
Theorem Empty_condition_iff_whitespace (input : string) :
  ParseCondition input = rejected "Empty condition" <->
  string_forall isWhitespace input = true.
Proof.
  rewrite ParseCondition_diagnosis. split.
  - intros H.
    assert (Hd : diagnosis (tokenize input) = Some "Empty condition").
    { destruct (diagnosis (tokenize input)); unfold accepted, rejected in H;
        congruence. }
    apply diagnosis_Empty in Hd.
    destruct (NextToken (NewLexer input)) as [[t l'] o] eqn:Hnext.
    destruct (Token_eq_dec t EOF) as [->|Hne].
    + apply string_forall_iff. intros i c Hg.
      apply (proj1 (proj1 (NextToken_EOF_facts (NewLexer input)))
               ltac:(rewrite Hnext; reflexivity) i c);
        [simpl; lia | assumption].
    + rewrite (tokenize_cons input t l' o Hnext Hne) in Hd. discriminate.
  - intros Hws. unfold tokenize.
    rewrite (tokens_loop_whitespace_only input Hws). reflexivity.
Qed.

Lemma Empty_condition_iff_whitespace_witness :
  string_forall isWhitespace "   " = true /\
  ParseCondition "   " = rejected "Empty condition".
Proof.
  split.
  - apply (proj1 (Empty_condition_iff_whitespace "   ")). reflexivity.
  - apply (proj2 (Empty_condition_iff_whitespace "   ")). reflexivity.
Defined.

(** X24.  White space before and after a condition changes neither its token
    stream nor what is printed nor the verdict: the padded input is
    accepted (and returned with its padding) when the condition is, and
    rejected with the same message when the condition is. *)
Theorem surrounding_whitespace_ignored (ws1 s ws2 : string) :
  string_forall isWhitespace ws1 = true ->
  string_forall isWhitespace ws2 = true ->
  let padded := String.append ws1 (String.append s ws2) in
  tokenize padded = tokenize s /\
  snd (ParseCondition_run padded) = snd (ParseCondition_run s) /\
  (ParseCondition s = accepted s -> ParseCondition padded = accepted padded) /\
  (forall msg, ParseCondition s = rejected msg ->
               ParseCondition padded = rejected msg).
Proof.
  intros H1 H2 padded.
  pose proof (tokens_loop_surrounding_whitespace ws1 s ws2 H1 H2) as Hloop.
  fold padded in Hloop.
  assert (Htok : tokenize padded = tokenize s)
    by (unfold tokenize; rewrite Hloop; reflexivity).
  split; [assumption|].
  split; [rewrite !ParseCondition_run_stdout, Hloop; reflexivity|].
  rewrite !ParseCondition_diagnosis, Htok.
  unfold accepted, rejected.
  destruct (diagnosis (tokenize s)); (split; [intros H | intros msg H]);
    try discriminate; try reflexivity.
  injection H as ->. reflexivity.
Qed.

Lemma surrounding_whitespace_ignored_witness :
  tokenize "  NOT (a)  " = tokenize "NOT (a)" /\
  ParseCondition "  NOT (a)  " = accepted "  NOT (a)  ".
Proof.
  pose proof (surrounding_whitespace_ignored "  " "NOT (a)" "  "
                eq_refl eq_refl) as [Htok [_ [Hacc _]]].
  split; [exact Htok | apply Hacc; reflexivity].
Defined.

(** *** Conditions that start with a name *)

Lemma lookup_not_word_keyword (w : string) :
  string_forall isLetter w = true ->
  ~ In w (map fst word_keywords) ->
  lookup keywords w = None.
Proof.
  intros Hall Hnot. destruct (lookup keywords w) as [t|] eqn:E; [|reflexivity].
  exfalso. apply Hnot.
  apply (in_map fst _ _ (lookup_keywords_letters w t E Hall)).
Qed.

(** X25.  A condition whose first word (after white space) is not one of [AND],
    [OR], [NOT], [EXISTS], [IN], such as a field name, is rejected with
    "Invalid condition", whatever follows the word. *)
Theorem leading_name_rejected (ws w rest : string) :
  string_forall isWhitespace ws = true ->
  w <> EmptyString ->
  string_forall isLetter w = true ->
  ~ In w (map fst word_keywords) ->
  (forall c, String.get 0 rest = Some c -> isLetter c = false) ->
  ParseCondition (String.append ws (String.append w rest)) =
    rejected "Invalid condition".
Proof.
  intros Hws Hne Hall Hnot Hrest.
  rewrite ParseCondition_diagnosis. unfold tokenize.
  rewrite (tokens_loop_leading_whitespace ws _ Hws).
  pose proof (NextToken_word_facts EmptyString w rest Hne Hall Hrest) as Hnext.
  cbv zeta in Hnext. rewrite (lookup_not_word_keyword w Hall Hnot) in Hnext.
  change {| input := String.append EmptyString (String.append w rest);
            pos := String.length EmptyString |}
    with (NewLexer (String.append w rest)) in Hnext.
  pose proof (tokenize_cons _ _ _ _ Hnext ltac:(discriminate)) as Htok.
  unfold tokenize in Htok. rewrite Htok.
  rewrite first_ILLEGAL_diagnosis; reflexivity.
Qed.

Lemma leading_name_rejected_witness :
  ParseCondition " duration > 100" = rejected "Invalid condition".
Proof.
  apply (leading_name_rejected " " "duration" " > 100");
    [reflexivity | discriminate | reflexivity | | intros c [= <-]; reflexivity].
  simpl. intuition discriminate.
Defined.

Lemma NextToken_illegal_byte (c : ascii) (l : Lexer) :
  String.get (pos l) (input l) = Some c ->
  isWhitespace c = false -> isLetter c = false -> isOperator c = false ->
  NextToken l = (ILLEGAL, advance l, []).
Proof.
  intros Hg Hws Hlet Hop. unfold NextToken.
  rewrite (skipWhitespace_id l c Hg Hws), Hg, Hlet.
  apply isOperator_false in Hop.
  destruct Hop as [-> [-> [-> [-> [-> [-> ->]]]]]]. reflexivity.
Qed.

(** X26.  A condition whose first byte after white space is neither a letter nor
    one of [( ) , = ! < >] (a digit, a quote, a brace, a non-ASCII byte) is
    rejected with "Invalid condition", and scanning that byte prints
    nothing. *)
Theorem leading_stray_byte_rejected (ws rest : string) (c : ascii) :
  string_forall isWhitespace ws = true ->
  isWhitespace c = false -> isLetter c = false -> isOperator c = false ->
  ParseCondition (String.append ws (String c rest)) =
    rejected "Invalid condition".
Proof.
  intros Hws Hc Hlet Hop.
  rewrite ParseCondition_diagnosis. unfold tokenize.
  rewrite (tokens_loop_leading_whitespace ws _ Hws).
  pose proof (NextToken_illegal_byte c (NewLexer (String c rest))
                eq_refl Hc Hlet Hop) as Hnext.
  pose proof (tokenize_cons _ _ _ _ Hnext ltac:(discriminate)) as Htok.
  unfold tokenize in Htok. rewrite Htok.
  rewrite first_ILLEGAL_diagnosis; reflexivity.
Qed.

Lemma leading_stray_byte_rejected_witness :
  ParseCondition "  {x}" = rejected "Invalid condition".
Proof.
  apply (leading_stray_byte_rejected "  " "x}" "{"); reflexivity.
Defined.

(** ** [main] *)

Section MainProperties.

Variable ReadFile : string -> string + string.

Lemma ParseCondition_run_fst (content : string) :
  fst (ParseCondition_run content) = ParseCondition content.
Proof. reflexivity. Qed.

(** X27.  The process exits with status 0 exactly when it is given a file name,
    the file can be read, and [ParseCondition] accepts the whole content
    of the file; its output then ends with the line "Definition is
    valid!".  In every other case the status is 1: the process never
    stops on a run-time panic. *)
Theorem main_exit_status (Args : list string) :
  (snd (main ReadFile Args) = 0 <->
   exists prog file rest content,
     Args = prog :: file :: rest /\
     ReadFile file = inl content /\
     ParseCondition content = accepted content) /\
  (snd (main ReadFile Args) = 0 ->
   exists printed,
     fst (main ReadFile Args) =
     String.append printed (Println "Definition is valid!")) /\
  (snd (main ReadFile Args) = 0 \/ snd (main ReadFile Args) = 1).
Proof.
  unfold main.
  destruct Args as [|prog [|file rest]]; cbn [List.length Nat.ltb Nat.leb nth_error].
  - split; [split|split]; simpl; try discriminate; try tauto.
    intros [p [f [r [c [H _]]]]]. discriminate.
  - split; [split|split]; simpl; try discriminate; try tauto.
    intros [p [f [r [c [H _]]]]]. discriminate.
  - destruct (ReadFile file) as [content|err] eqn:Hread.
    + pose proof (ParseCondition_run_fst content) as Hfst.
      destruct (ParseCondition_run content) as [result lines].
      cbn [fst] in Hfst.
      destruct (check_result content (tokenize content)) as [Hacc|[msg [_ Hrej]]];
        rewrite <- ParseCondition_check, <- Hfst in *.
      * rewrite Hacc. unfold accepted. cbn [fst snd].
        split; [split|split]; try tauto.
        -- intros _. exists prog, file, rest, content.
           split; [reflexivity|]. split; [assumption|].
           unfold accepted in Hacc. congruence.
        -- intros _. eexists. reflexivity.
      * rewrite Hrej. unfold rejected. cbn [fst snd].
        split; [split|split]; try discriminate; try tauto.
        intros [p [f [r [c [[= <- <- <-] [Hc Ha]]]]]].
        rewrite Hread in Hc. injection Hc as <-.
        rewrite <- Hfst, Hrej in Ha. discriminate.
    + cbn [fst snd]. split; [split|split]; try discriminate; try tauto.
      intros [p [f [r [c [[= <- <- <-] [Hc _]]]]]]. congruence.
Qed.

(** X28.  A file whose first byte after white space is neither a letter nor one
    of [( ) , = ! < >] makes the process exit with status 1 after the
    report "Invalid condition" for that file.  The whole content of the
    file is taken as the condition, so this is the case of every file that
    holds a JSON object. *)
Theorem main_rejects_stray_first_byte
  (prog file : string) (rest : list string) (ws tail : string) (c : ascii) :
  ReadFile file = inl (String.append ws (String c tail)) ->
  string_forall isWhitespace ws = true ->
  isWhitespace c = false -> isLetter c = false -> isOperator c = false ->
  snd (main ReadFile (prog :: file :: rest)) = 1 /\
  exists printed,
    fst (main ReadFile (prog :: file :: rest)) =
    String.append printed
      (String.append "Invalid derived column definition in file "
         (String.append file
            (String.append ":"
               (String.append newline
                  (String.append "Invalid condition" newline))))).
Proof.
  intros Hread Hws Hc Hlet Hop.
  unfold main. cbn [List.length Nat.ltb Nat.leb nth_error]. rewrite Hread.
  set (content := String.append ws (String c tail)).
  pose proof (ParseCondition_run_fst content) as Hfst.
  destruct (ParseCondition_run content) as [result lines].
  cbn [fst] in Hfst.
  assert (Hrej : ParseCondition content = rejected "Invalid condition").
  { unfold content. rewrite ParseCondition_diagnosis. unfold tokenize.
    rewrite (tokens_loop_leading_whitespace ws _ Hws).
    pose proof (NextToken_illegal_byte c (NewLexer (String c tail))
                  eq_refl Hc Hlet Hop) as Hnext.
    pose proof (tokenize_cons _ _ _ _ Hnext ltac:(discriminate)) as Htok.
    unfold tokenize in Htok. rewrite Htok.
    rewrite first_ILLEGAL_diagnosis; reflexivity. }
  rewrite Hfst, Hrej. unfold rejected. cbn [fst snd].
  split; [reflexivity|]. eexists. reflexivity.
Qed.

End MainProperties.

Lemma main_exit_status_witness :
  snd (main (fun name => if String.eqb name "cond.txt" then inl "NOT (x)"
                         else inr "no such file")
         ["honeycomb-linter"; "cond.txt"]) = 0 /\
  exists printed,
    fst (main (fun name => if String.eqb name "cond.txt" then inl "NOT (x)"
                           else inr "no such file")
           ["honeycomb-linter"; "cond.txt"]) =
    String.append printed (Println "Definition is valid!").
Proof.
  split.
  - apply (proj1 (main_exit_status _ _)).
    exists "honeycomb-linter", "cond.txt", [], "NOT (x)".
    repeat split; reflexivity.
  - apply (proj1 (proj2 (main_exit_status _ _))). reflexivity.
Defined.

Lemma main_rejects_stray_first_byte_witness :
  snd (main (fun _ => inl "{ x }") ["honeycomb-linter"; "definition.json"]) = 1.
Proof.
  apply (main_rejects_stray_first_byte (fun _ => inl "{ x }")
           "honeycomb-linter" "definition.json" [] "" " x }" "{");
    reflexivity.
Defined.
